(** * COA Services contact-form relay: a shallow embedding of [server/server.js]

    The development follows the hardened server: the HTML sanitizer, the
    loose e-mail shape check, the one-time CSRF token store, the Express
    middleware chain of [POST /api/contact] and the two-mail dispatch. *)

From Stdlib Require Import ZArith NArith Lia String Ascii.
From stdpp Require Import base decidable option list gmap numbers strings pretty.

Local Open Scope Z_scope.

(** ** JavaScript strings

    A JavaScript string is a sequence of UTF-16 code units.  Literals of the
    source are ASCII and are written with [lit]. *)

Definition jsstring := list N.

Fixpoint lit (s : string) : jsstring :=
  match s with
  | EmptyString => []
  | String a r => N_of_ascii a :: lit r
  end.

(** A value read from a request (a header, a field of the JSON body) is a
    string or is absent ([undefined] / [null]): the data model of the
    submission has string fields only. *)
Definition jsvalue := option jsstring.

(** [!v] for such a value: absent and the empty string are falsy. *)
Definition falsy (v : jsvalue) : bool :=
  match v with
  | None => true
  | Some [] => true
  | Some (_ :: _) => false
  end.

Definition absent_or_empty (v : jsvalue) : Prop := v = None \/ v = Some [].

(** [String(v)] on the truthy branch. *)
Definition String_of (v : jsvalue) : jsstring := default [] v.

(** ** Sanitizer ([sanitizeHtml], server.js lines 17-26) *)

Module Sanitizer.

Definition AMP : N := 38%N.
Definition LT : N := 60%N.
Definition GT : N := 62%N.
Definition QUOT : N := 34%N.
Definition APOS : N := 39%N.
Definition SLASH : N := 47%N.

(** [s.replace(/c/g, ent)] for a one-character pattern: every occurrence
    of the code unit [c], left to right, becomes [ent]. *)
Definition replaceAll (c : N) (ent : jsstring) (s : jsstring) : jsstring :=
  flat_map (fun x => if N.eqb x c then ent else [x]) s.

Definition sanitizeHtml (str : jsvalue) : jsstring :=
  if falsy str then []
  else
    replaceAll SLASH (lit "&#x2F;")
      (replaceAll APOS (lit "&#x27;")
        (replaceAll QUOT (lit "&quot;")
          (replaceAll GT (lit "&gt;")
            (replaceAll LT (lit "&lt;")
              (replaceAll AMP (lit "&amp;") (String_of str)))))).

(** The six replacements of [sanitizeHtml], in the order of the source. *)
Definition six_passes (s : jsstring) : jsstring :=
  replaceAll SLASH (lit "&#x2F;")
    (replaceAll APOS (lit "&#x27;")
      (replaceAll QUOT (lit "&quot;")
        (replaceAll GT (lit "&gt;")
          (replaceAll LT (lit "&lt;")
            (replaceAll AMP (lit "&amp;") s))))).

(** The sanitizer as the specification words it: one left-to-right pass
    that maps each character to its entity, or to itself. *)
Definition escape_char (c : N) : jsstring :=
  if N.eqb c AMP then lit "&amp;"
  else if N.eqb c LT then lit "&lt;"
  else if N.eqb c GT then lit "&gt;"
  else if N.eqb c QUOT then lit "&quot;"
  else if N.eqb c APOS then lit "&#x27;"
  else if N.eqb c SLASH then lit "&#x2F;"
  else [c].

Definition escape_single_pass (s : jsstring) : jsstring :=
  flat_map escape_char s.

Definition special (c : N) : bool :=
  N.eqb c AMP || N.eqb c LT || N.eqb c GT
  || N.eqb c QUOT || N.eqb c APOS || N.eqb c SLASH.

End Sanitizer.

(** ** Regular expressions ([emailRegex], server.js line 161)

    The pattern uses character classes, concatenation and [+] only, and is
    anchored at both ends, so [emailRegex.test(s)] is membership of the whole
    string in the pattern's language.  The matcher runs by derivatives. *)

Module Regex.

Inductive regex : Type :=
| RNone
| REps
| RClass (p : N -> bool)
| RSeq (r1 r2 : regex)
| RAlt (r1 r2 : regex)
| RStar (r : regex).

(** [r+] *)
Definition RPlus (r : regex) : regex := RSeq r (RStar r).

Fixpoint nullable (r : regex) : bool :=
  match r with
  | RNone => false
  | REps => true
  | RClass _ => false
  | RSeq r1 r2 => nullable r1 && nullable r2
  | RAlt r1 r2 => nullable r1 || nullable r2
  | RStar _ => true
  end.

Fixpoint deriv (c : N) (r : regex) : regex :=
  match r with
  | RNone => RNone
  | REps => RNone
  | RClass p => if p c then REps else RNone
  | RSeq r1 r2 =>
      if nullable r1
      then RAlt (RSeq (deriv c r1) r2) (deriv c r2)
      else RSeq (deriv c r1) r2
  | RAlt r1 r2 => RAlt (deriv c r1) (deriv c r2)
  | RStar r1 => RSeq (deriv c r1) (RStar r1)
  end.

Fixpoint test (r : regex) (s : jsstring) : bool :=
  match s with
  | [] => nullable r
  | c :: s' => test (deriv c r) s'
  end.

(** The language of a pattern. *)
Inductive matches : regex -> jsstring -> Prop :=
| MEps : matches REps []
| MClass p c : p c = true -> matches (RClass p) [c]
| MSeq r1 r2 s1 s2 :
    matches r1 s1 -> matches r2 s2 -> matches (RSeq r1 r2) (s1 ++ s2)
| MAltL r1 r2 s : matches r1 s -> matches (RAlt r1 r2) s
| MAltR r1 r2 s : matches r2 s -> matches (RAlt r1 r2) s
| MStarNil r : matches (RStar r) []
| MStarApp r s1 s2 :
    matches r s1 -> matches (RStar r) s2 -> matches (RStar r) (s1 ++ s2).

(** [\s] of ECMAScript: white space and line terminators. *)
Definition is_space (c : N) : bool :=
  ((9 <=? c) && (c <=? 13) || N.eqb c 32 || N.eqb c 160 || N.eqb c 5760
   || (8192 <=? c) && (c <=? 8202) || N.eqb c 8232 || N.eqb c 8233
   || N.eqb c 8239 || N.eqb c 8287 || N.eqb c 12288 || N.eqb c 65279)%N.

Definition AT : N := 64%N.
Definition DOT : N := 46%N.

(** [[^\s@]] *)
Definition not_space_at (c : N) : bool := negb (is_space c || N.eqb c AT).

(** [/^[^\s@]+@[^\s@]+\.[^\s@]+$/] *)
Definition emailRegex : regex :=
  RSeq (RPlus (RClass not_space_at))
    (RSeq (RClass (N.eqb AT))
      (RSeq (RPlus (RClass not_space_at))
        (RSeq (RClass (N.eqb DOT))
          (RPlus (RClass not_space_at))))).

(** The shape as the specification words it: one or more characters that
    are neither white space nor [@], then [@], then one or more such
    characters, then a dot, then one or more such characters. *)
Definition email_shape (s : jsstring) : Prop :=
  exists u v w : jsstring,
    s = u ++ AT :: v ++ DOT :: w
    /\ u <> [] /\ v <> [] /\ w <> []
    /\ Forall (fun c => not_space_at c = true) u
    /\ Forall (fun c => not_space_at c = true) v
    /\ Forall (fun c => not_space_at c = true) w.

End Regex.

(** ** A JavaScript [Map] keyed by strings

    Entries are kept in insertion order, which is the order [entries()]
    visits them in.  Keys are unique in every map built with [set]. *)

Module JsMap.
Section WithValues.
Context {V : Type}.

Definition t : Type := list (jsstring * V).

Fixpoint get (k : jsstring) (m : t) : option V :=
  match m with
  | [] => None
  | (k', v) :: m' => if decide (k' = k) then Some v else get k m'
  end.

Definition has (k : jsstring) (m : t) : bool :=
  match get k m with Some _ => true | None => false end.

(** [set] overwrites the value of a present key where it stands and
    appends a new key at the end. *)
Fixpoint set (k : jsstring) (v : V) (m : t) : t :=
  match m with
  | [] => [(k, v)]
  | (k', v') :: m' =>
      if decide (k' = k) then (k, v) :: m' else (k', v') :: set k v m'
  end.

Fixpoint delete (k : jsstring) (m : t) : t :=
  match m with
  | [] => []
  | (k', v') :: m' =>
      if decide (k' = k) then delete k m' else (k', v') :: delete k m'
  end.
End WithValues.
Arguments t : clear implicits.
End JsMap.

(** ** Data model *)

(** An entry of [csrfTokens]. *)
Record TokenData := { clientId : jsstring; expires : Z }.

(** [process.env], the variables the server reads. *)
Record ProcessEnv := {
  EMAIL_USER : jsvalue;
  EMAIL_PASSWORD : jsvalue;
  COMPANY_EMAIL : jsvalue
}.

(** [req.body] of a contact submission. *)
Record ContactBody := {
  name : jsvalue;
  email : jsvalue;
  phone : jsvalue;
  company : jsvalue;
  service : jsvalue;
  message : jsvalue
}.

Record Request := {
  ip : jsstring;
  x_csrf_token : jsvalue;   (* req.headers['x-csrf-token'] *)
  body : ContactBody
}.

Record SanitizedData := {
  s_name : jsstring;
  s_email : jsstring;
  s_phone : jsstring;
  s_company : jsstring;
  s_service : jsstring;
  s_message : jsstring
}.

(** The two HTML bodies are template literals over the sanitized data; a
    body is kept as the template it instantiates and the data
    interpolated into it, the fixed markup is not transcribed. *)
Inductive MailTemplate := CompanyNotification | CustomerAutoReply.

Record MailOptions := {
  from : jsvalue;
  to : jsvalue;
  subject : jsstring;
  html : MailTemplate * SanitizedData
}.

Inductive Json :=
| JResult (success : bool) (msg : string)   (* { success, message } *)
| JToken (csrfToken : jsstring)             (* { csrfToken } *)
| JHealth (timestamp : Z)                   (* { status: 'OK', timestamp } *)
| JFile (path : string).                    (* sendFile *)

Record Response := { status : Z; json : Json }.

(** What a middleware does at its end: call [next()] or send a response. *)
Inductive Verdict := Next | Respond (r : Response).

(** How a block of statements ends: normally, or by a thrown error (a
    rejected promise under [await]). *)
Inductive Completion (A : Type) := Normal (a : A) | Thrown.
Arguments Normal {A} a.
Arguments Thrown {A}.

(** Modelled from the spec: the per-address record of the rate limiter
    ([express-rate-limit] itself is a dependency and not part of the
    sources): a count and the start of the current window. *)
Record RateWindow := { count : Z; windowStart : Z }.

(** The mutable state of the process, the number of clock readings taken
    so far and the log of [sendMail] calls (document and outcome). *)
Record World := {
  csrfTokens : JsMap.t TokenData;
  emailConfigValid : bool;
  limiterHits : gmap jsstring RateWindow;
  ticks : nat;
  sendCalls : list (MailOptions * bool)
}.

Definition startup : World :=
  {| csrfTokens := []; emailConfigValid := false; limiterHits := ∅;
     ticks := 0%nat; sendCalls := [] |}.

Definition set_csrfTokens (f : JsMap.t TokenData -> JsMap.t TokenData)
    (w : World) : World :=
  {| csrfTokens := f (csrfTokens w); emailConfigValid := emailConfigValid w;
     limiterHits := limiterHits w; ticks := ticks w;
     sendCalls := sendCalls w |}.

Definition set_emailConfigValid (b : bool) (w : World) : World :=
  {| csrfTokens := csrfTokens w; emailConfigValid := b;
     limiterHits := limiterHits w; ticks := ticks w;
     sendCalls := sendCalls w |}.

Definition set_limiterHits
    (f : gmap jsstring RateWindow -> gmap jsstring RateWindow)
    (w : World) : World :=
  {| csrfTokens := csrfTokens w; emailConfigValid := emailConfigValid w;
     limiterHits := f (limiterHits w); ticks := ticks w;
     sendCalls := sendCalls w |}.

Definition tick (w : World) : World :=
  {| csrfTokens := csrfTokens w; emailConfigValid := emailConfigValid w;
     limiterHits := limiterHits w; ticks := S (ticks w);
     sendCalls := sendCalls w |}.

Definition log_send (m : MailOptions) (ok : bool) (w : World) : World :=
  {| csrfTokens := csrfTokens w; emailConfigValid := emailConfigValid w;
     limiterHits := limiterHits w; ticks := ticks w;
     sendCalls := sendCalls w ++ [(m, ok)] |}.

(** ** The state monad of request handlers *)

Definition M (A : Type) : Type := World -> A * World.

Definition ret {A} (a : A) : M A := fun w => (a, w).

Definition bind {A B} (m : M A) (f : A -> M B) : M B :=
  fun w => let (a, w') := m w in f a w'.

Definition gets {A} (f : World -> A) : M A := fun w => (f w, w).

Definition modify (f : World -> World) : M unit := fun w => (tt, f w).

Declare Scope handler_scope.
Delimit Scope handler_scope with handler.
Notation "'let!' x := m 'in' k" := (bind m (fun x => k))
  (at level 10, x name, m at level 100, k at level 200, only parsing)
  : handler_scope.
Notation "'do!' m 'in' k" := (bind m (fun _ => k))
  (at level 10, m at level 100, k at level 200, only parsing)
  : handler_scope.

(** A block that may throw, and [try { body } catch { handler }]. *)
Definition T (A : Type) : Type := M (Completion A).

Definition bindT {A B} (m : T A) (f : A -> T B) : T B :=
  bind m (fun c => match c with Normal a => f a | Thrown => ret Thrown end).

Definition retT {A} (a : A) : T A := ret (Normal a).

Definition try_catch {A} (blk : T A) (handler : M A) : M A :=
  bind blk (fun c => match c with Normal a => ret a | Thrown => handler end).

Notation "'await!' m 'in' k" := (bindT m (fun _ => k))
  (at level 10, m at level 100, k at level 200, only parsing)
  : handler_scope.

(** ** Token generation

    [crypto.randomBytes(32).toString('hex')]: the bytes drawn are an input
    of the model, each is printed as two lower-case hexadecimal digits. *)

Definition hexdigit (d : N) : N :=
  if (d <? 10)%N then (48 + d)%N else (87 + d)%N.

Definition toHex (bytes : list N) : jsstring :=
  flat_map (fun b => [hexdigit (b / 16); hexdigit (b mod 16)])%N bytes.

(** ** Options of [contactLimiter] (server.js lines 58-62) *)

Module RateLimit.
Definition windowMs : Z := 15 * 60 * 1000.
Definition max : Z := 5.
Definition message : Json :=
  JResult false
    "Too many contact requests from this IP, please try again later.".
(** Modelled from the spec: a rejected request is answered with the
    [TooManyRequests] status, HTTP 429. *)
Definition statusCode : Z := 429.
End RateLimit.

(** ** Responses of the contact route *)

Definition csrfInvalid : Response :=
  {| status := 403; json := JResult false "Invalid or missing CSRF token" |}.

Definition csrfExpired : Response :=
  {| status := 403; json := JResult false "CSRF token expired" |}.

Definition emailUnavailable : Response :=
  {| status := 503;
     json := JResult false
       "Email service is temporarily unavailable. Please try again later." |}.

Definition missingRequiredField : Response :=
  {| status := 400;
     json := JResult false "Please provide name, email, and message." |}.

Definition invalidEmailFormat : Response :=
  {| status := 400;
     json := JResult false "Please provide a valid email address." |}.

Definition messageSent : Response :=
  {| status := 200; json := JResult true "Message sent successfully!" |}.

Definition dispatchFailure : Response :=
  {| status := 500;
     json := JResult false
       "Failed to send message. Please try again later." |}.

Definition tooManyRequests : Response :=
  {| status := RateLimit.statusCode; json := RateLimit.message |}.

Definition notFound : Response :=
  {| status := 404; json := JFile "404.html" |}.

(** ** Field validation (server.js lines 152-167) *)

Definition fieldValidation (b : ContactBody) : option Response :=
  if falsy (name b) || falsy (email b) || falsy (message b)
  then Some missingRequiredField
  else if negb (Regex.test Regex.emailRegex (String_of (email b)))
  then Some invalidEmailFormat
  else None.

(** ** The mail documents (server.js lines 169-236) *)

Definition sanitize (b : ContactBody) : SanitizedData :=
  {| s_name := Sanitizer.sanitizeHtml (name b);
     s_email := Sanitizer.sanitizeHtml (email b);
     s_phone := Sanitizer.sanitizeHtml (phone b);
     s_company := Sanitizer.sanitizeHtml (company b);
     s_service := Sanitizer.sanitizeHtml (service b);
     s_message := Sanitizer.sanitizeHtml (message b) |}.

Definition companyMailOptions (env : ProcessEnv) (d : SanitizedData)
    : MailOptions :=
  {| from := EMAIL_USER env;
     to := COMPANY_EMAIL env;
     subject := lit "New Contact Form Submission from " ++ s_name d;
     html := (CompanyNotification, d) |}.

Definition customerMailOptions (env : ProcessEnv) (b : ContactBody)
    (d : SanitizedData) : MailOptions :=
  {| from := EMAIL_USER env;
     to := email b;
     subject := lit "Thank you for contacting COA Services";
     html := (CustomerAutoReply, d) |}.

(** [validateEmailConfig] (server.js lines 100-108). *)
Definition validateEmailConfig (env : ProcessEnv) : bool :=
  negb (falsy (EMAIL_USER env)) && negb (falsy (EMAIL_PASSWORD env))
  && negb (falsy (COMPANY_EMAIL env)).

(** ** The server *)

(** The handlers of a route, by name. *)
Inductive Stage := ContactLimiter | ValidateCsrf | ContactHandler.

Inductive Event :=
| GetCsrfToken (ip : jsstring) (randomBytes : list N)
| PostContact (req : Request)
| TransporterVerified (error : bool)
| GetHealth.

Section Server.

(** The successive readings of [Date.now()], the outcome of the k-th
    [sendMail] call on a document, and the environment.  A handler runs
    to its response before the next event is taken: the only points
    where the source yields are the two [await]s of the contact
    handler, which reads no shared state after them. *)
Context (clock : nat -> Z).
Context (transport : nat -> MailOptions -> bool).
Context (env : ProcessEnv).

Local Open Scope handler_scope.

Definition Date_now : M Z := fun w => (clock (ticks w), tick w).

Definition sendMail (m : MailOptions) : T unit :=
  fun w =>
    let ok := transport (length (sendCalls w)) m in
    (if ok then Normal tt else Thrown, log_send m ok w).

(** Modelled from the spec: the middleware that [rateLimit] of
    express-rate-limit builds, whose code is not in the sources.  It
    counts the requests of an address in a window that starts at the
    first request and lasts [windowMs]; the count starts again once the
    window is over, and a request is rejected once the count exceeds
    [max].  The options are those of server.js lines 58-62. *)
Definition contactLimiter (req : Request) : M Verdict :=
  let! now := Date_now in
  let! hits := gets limiterHits in
  let fresh := {| count := 0; windowStart := now |} in
  let win :=
    match hits !! ip req with
    | Some win => if windowStart win + RateLimit.windowMs <=? now
                  then fresh else win
    | None => fresh
    end in
  let win' := {| count := count win + 1; windowStart := windowStart win |} in
  do! modify (set_limiterHits <[ip req := win']>) in
  if RateLimit.max <? count win'
  then ret (Respond tooManyRequests)
  else ret Next.

(** The loop of server.js lines 71-75: one clock reading per entry. *)
Fixpoint sweep (entries : JsMap.t TokenData) : M unit :=
  match entries with
  | [] => ret tt
  | (key, value) :: rest =>
      let! now := Date_now in
      do! (if expires value <? now
           then modify (set_csrfTokens (JsMap.delete key))
           else ret tt) in
      sweep rest
  end.

(** [app.get('/api/csrf-token')] (server.js lines 65-78). *)
Definition getCsrfToken (ip : jsstring) (randomBytes : list N)
    : M Response :=
  let token := toHex randomBytes in
  let! t1 := Date_now in
  let clientId := ip ++ lit "-" ++ lit (pretty t1) in
  let! t2 := Date_now in
  do! modify (set_csrfTokens
                (JsMap.set token
                   {| clientId := clientId; expires := t2 + 3600000 |})) in
  let! entries := gets csrfTokens in
  do! sweep entries in
  ret {| status := 200; json := JToken token |}.

(** [validateCsrf] (server.js lines 81-97). *)
Definition validateCsrf (req : Request) : M Verdict :=
  let token := x_csrf_token req in
  let! tokens := gets csrfTokens in
  if falsy token || negb (JsMap.has (String_of token) tokens)
  then ret (Respond csrfInvalid)
  else
    match JsMap.get (String_of token) tokens with
    | None => ret (Respond csrfInvalid)   (* not reached: [has] was true *)
    | Some tokenData =>
        let! now := Date_now in
        if expires tokenData <? now
        then
          do! modify (set_csrfTokens (JsMap.delete (String_of token))) in
          ret (Respond csrfExpired)
        else
          do! modify (set_csrfTokens (JsMap.delete (String_of token))) in
          ret Next
    end.

(** The handler of [app.post('/api/contact')] (server.js lines 139-254). *)
Definition contactHandler (req : Request) : M Response :=
  try_catch
    (let! valid := gets emailConfigValid in
     if negb valid then retT emailUnavailable
     else
       match fieldValidation (body req) with
       | Some r => retT r
       | None =>
           let sanitizedData := sanitize (body req) in
           await! sendMail (companyMailOptions env sanitizedData) in
           await! sendMail
             (customerMailOptions env (body req) sanitizedData) in
           retT messageSent
       end)
    (ret dispatchFailure).

(** Express runs the handlers of a route in order; each one either
    responds or calls [next()].  The result lists the handlers that
    ran. *)
Fixpoint dispatch (chain : list (Stage * (Request -> M Verdict)))
    (req : Request) : M (list Stage * option Response) :=
  match chain with
  | [] => ret ([], None)
  | (stage, handler) :: rest =>
      let! v := handler req in
      match v with
      | Respond r => ret ([stage], Some r)
      | Next =>
          let! out := dispatch rest req in
          ret (stage :: fst out, snd out)
      end
  end.

(** [app.post('/api/contact', contactLimiter, validateCsrf, handler)]. *)
Definition contactRoute : list (Stage * (Request -> M Verdict)) :=
  [ (ContactLimiter, contactLimiter);
    (ValidateCsrf, validateCsrf);
    (ContactHandler, fun req => let! r := contactHandler req in ret (Respond r)) ].

Definition postContact (req : Request) : M (list Stage * option Response) :=
  dispatch contactRoute req.

(** The callback of [transporter.verify], registered at startup only
    when the configuration is complete (server.js lines 122-136). *)
Definition transporterVerified (error : bool) : M unit :=
  if validateEmailConfig env
  then modify (set_emailConfigValid (negb error))
  else ret tt.

(** [app.get('/api/health')] (server.js lines 257-259). *)
Definition getHealth : M Response :=
  let! now := Date_now in
  ret {| status := 200; json := JHealth now |}.

(** One event of the process: a request, answered by a response, or
    the verification callback, which answers nobody.  A request that
    falls off the end of its route reaches the 404 handler. *)
Definition handle (ev : Event) : M (option Response) :=
  match ev with
  | GetCsrfToken ip randomBytes =>
      let! r := getCsrfToken ip randomBytes in ret (Some r)
  | PostContact req =>
      let! out := postContact req in
      ret (Some (default notFound (snd out)))
  | TransporterVerified error =>
      do! transporterVerified error in ret None
  | GetHealth =>
      let! r := getHealth in ret (Some r)
  end.

(** The server after a sequence of events. *)
Definition run (evs : list Event) (w : World) : World :=
  fold_left (fun w ev => snd (handle ev w)) evs w.

End Server.

(** ** The contact form script (browser side)

    The handlers that the page script attaches to the contact form: the
    formatting of the phone field on input, the check of the e-mail field
    on blur, and the submission with [fetch].  A field's [value] is always
    a string. *)

Module ContactForm.

(** A code unit that [\D] does not match: a decimal digit. *)
Definition is_digit (c : N) : bool := ((48 <=? c) && (c <=? 57))%N.

(** [s.slice(a, b)] and [s.slice(a)] for [0 <= a <= b]; an end past the
    length is clamped. *)
Definition slice (a b : nat) (s : jsstring) : jsstring :=
  take (b - a) (drop a s).

Definition slice_from (a : nat) (s : jsstring) : jsstring := drop a s.

(** The [input] handler of the phone field: the value it writes back,
    from the value it reads. *)
Definition phoneInput (current : jsstring) : jsstring :=
  let value := List.filter is_digit current in
  if (0 <? length value)%nat then
    if (length value <=? 3)%nat then value
    else if (length value <=? 6)%nat then
      lit "(" ++ slice 0 3 value ++ lit ") " ++ slice_from 3 value
    else
      lit "(" ++ slice 0 3 value ++ lit ") " ++ slice 3 6 value
      ++ lit "-" ++ slice 6 10 value
  else value.

(** The [blur] handler of the e-mail field: the custom validity message it
    sets, empty for a field it accepts. *)
Definition emailBlur (value : jsstring) : string :=
  if negb (falsy (Some value)) && negb (Regex.test Regex.emailRegex value)
  then "Please enter a valid email address"
  else EmptyString.

(** The values of the six fields when the form is submitted. *)
Record FormFields := {
  f_name : jsstring;
  f_email : jsstring;
  f_phone : jsstring;
  f_company : jsstring;
  f_service : jsstring;
  f_message : jsstring
}.

Definition formData (f : FormFields) : ContactBody :=
  {| name := Some (f_name f); email := Some (f_email f);
     phone := Some (f_phone f); company := Some (f_company f);
     service := Some (f_service f); message := Some (f_message f) |}.

(** The request that [fetch('/api/contact', ...)] makes, as the server
    receives it from address [ip]: the only header the script sets is
    [Content-Type]. *)
Definition submitRequest (ip : jsstring) (f : FormFields) : Request :=
  {| ip := ip; x_csrf_token := None; body := formData f |}.

(** [response.ok] *)
Definition response_ok (r : Response) : bool :=
  (200 <=? status r) && (status r <=? 299).

(** [result.message] of the parsed body. *)
Definition result_message (j : Json) : option string :=
  match j with
  | JResult _ msg => Some msg
  | _ => None
  end.

Definition somethingWentWrong : string :=
  "Something went wrong. Please try again.".

(** The arguments of the [showMessage] call that follows the response:
    the text and the type. *)
Definition feedback (r : Response) : string * string :=
  if response_ok r
  then ("Thank you for contacting us! We'll get back to you soon.",
        "success")
  else (match result_message (json r) with
        | Some (String c rest) => String c rest
        | _ => somethingWentWrong
        end,
        "error").

End ContactForm.

(** ** Vocabulary of the properties *)

(** Keys are unique in a [Map]. *)
Definition unique_keys {V} (m : JsMap.t V) : Prop := NoDup (map fst m).

(** The event is a contact request that carries the token [tok]. *)
Definition presents (tok : jsstring) (ev : Event) : bool :=
  match ev with
  | PostContact req => bool_decide (x_csrf_token req = Some tok)
  | _ => false
  end.

(** The event is an issuance whose random bytes print as [tok]. *)
Definition issues (tok : jsstring) (ev : Event) : bool :=
  match ev with
  | GetCsrfToken _ randomBytes => bool_decide (toHex randomBytes = tok)
  | _ => false
  end.

(** The expiry recorded by an issuance that starts in world [w]: one hour
    after the second clock reading of the handler. *)
Definition issued_expiry (clock : nat -> Z) (w : World) : Z :=
  clock (S (ticks w)) + 3600000.

(** The entry recorded by an issuance for address [ip] in world [w]. *)
Definition issued (clock : nat -> Z) (ip : jsstring) (w : World) : TokenData :=
  {| clientId := ip ++ lit "-" ++ lit (pretty (clock (ticks w)));
     expires := issued_expiry clock w |}.

(** The request carries a token that is in the store and is not past its
    expiry at time [now]. *)
Definition valid_token (now : Z) (req : Request) (tokens : JsMap.t TokenData)
    (tok : jsstring) : Prop :=
  x_csrf_token req = Some tok /\ tok <> []
  /\ exists tokenData, JsMap.get tok tokens = Some tokenData
                       /\ now <= expires tokenData.

(** The store with every recorded [clientId] replaced. *)
Definition relabel (f : jsstring -> jsstring -> jsstring) (w : World)
    : World :=
  set_csrfTokens
    (map (fun kv => (fst kv, {| clientId := f (fst kv) (clientId (snd kv));
                                expires := expires (snd kv) |})))
    w.

(** The three parts of what a route returns. *)
Definition stages_run {A} (out : list Stage * option Response * A)
    : list Stage := fst (fst out).
Definition response {A} (out : list Stage * option Response * A)
    : option Response := snd (fst out).
Definition world_after {A} (out : list Stage * option Response * A) : A :=
  snd out.

(** The window a request at time [now] is counted in. *)
Definition current_window (now : Z) (hit : option RateWindow) : RateWindow :=
  match hit with
  | Some win =>
      if windowStart win + RateLimit.windowMs <=? now
      then {| count := 0; windowStart := now |}
      else win
  | None => {| count := 0; windowStart := now |}
  end.

(** The verdicts of the rate limiter on successive requests. *)
Fixpoint limiterVerdicts (clock : nat -> Z) (reqs : list Request) (w : World)
    : list Verdict * World :=
  match reqs with
  | [] => ([], w)
  | req :: rest =>
      let (v, w1) := contactLimiter clock req w in
      let (vs, w2) := limiterVerdicts clock rest w1 in
      (v :: vs, w2)
  end.

(** The verdict expected of the [i]-th request of a window, from 0. *)
Definition verdict_in_window (i : nat) : Verdict :=
  if (i <? 5)%nat then Next else Respond tooManyRequests.

(** One event of a run as an observer of the server sees it: the event,
    the clock reading its handler starts with (for a contact request, the
    reading of the rate limiter) and the response. *)
Record Exchange := {
  event : Event;
  asked_at : Z;
  answer : option Response
}.

Fixpoint history (clock : nat -> Z) (transport : nat -> MailOptions -> bool)
    (env : ProcessEnv) (evs : list Event) (w : World) : list Exchange :=
  match evs with
  | [] => []
  | ev :: rest =>
      let out := handle clock transport env ev w in
      {| event := ev; asked_at := clock (ticks w); answer := fst out |}
      :: history clock transport env rest (snd out)
  end.

(** The event is a contact request from address [a]. *)
Definition sent_from (a : jsstring) (ev : Event) : bool :=
  match ev with
  | PostContact req => bool_decide (ip req = a)
  | _ => false
  end.

(** The contact requests of address [a] in a history, in order. *)
Definition requests_of (a : jsstring) (h : list Exchange) : list Exchange :=
  List.filter (fun x => sent_from a (event x)) h.

Definition answered_429 (x : Exchange) : bool :=
  match answer x with
  | Some r => status r =? 429
  | None => false
  end.

(** The [i]-th request of a window, from 0, is over the limit. *)
Definition over_limit (i : nat) : bool := negb (i <? 5)%nat.

(** Modelled from the spec: the limiter run on the requests of one
    address alone, given the record of the address and the clock readings
    of its requests: for each request, whether it is over the limit. *)
Fixpoint window_replay (hit : option RateWindow) (times : list Z)
    : list bool :=
  match times with
  | [] => []
  | now :: rest =>
      let win := current_window now hit in
      (RateLimit.max <? count win + 1)
      :: window_replay
           (Some {| count := count win + 1; windowStart := windowStart win |})
           rest
  end.

(** ** Sample inputs *)

Module Sample.

(** A clock that advances by one second at every reading. *)
Definition clock (n : nat) : Z := 1700000000000 + 1000 * Z.of_nat n.

(** A clock that advances by twenty minutes at every reading. *)
Definition slow_clock (n : nat) : Z := 1700000000000 + 1200000 * Z.of_nat n.

Definition reachable (k : nat) (m : MailOptions) : bool := true.
Definition unreachable (k : nat) (m : MailOptions) : bool := false.

(** A transport that delivers the first document only. *)
Definition second_fails (k : nat) (m : MailOptions) : bool :=
  match k with O => true | S _ => false end.

Definition env : ProcessEnv :=
  {| EMAIL_USER := Some (lit "relay@coa.example");
     EMAIL_PASSWORD := Some (lit "app-password");
     COMPANY_EMAIL := Some (lit "office@coa.example") |}.

Definition address : jsstring := lit "203.0.113.7".

Definition randomBytes : list N := map N.of_nat (seq 0 32).
Definition token : jsstring := toHex randomBytes.

Definition submission : ContactBody :=
  {| name := Some (lit "X"); email := Some (lit "a@b.co");
     phone := None; company := None; service := None;
     message := Some (lit "hi") |}.

Definition with_token : Request :=
  {| ip := address; x_csrf_token := Some token; body := submission |}.

Definition without_token : Request :=
  {| ip := address; x_csrf_token := None; body := submission |}.

Definition unknown_token : Request :=
  {| ip := address; x_csrf_token := Some (lit "0123abcd");
     body := submission |}.

(** The server once the transport has been verified. *)
Definition ready : World := set_emailConfigValid true startup.

End Sample.

(** ** Further vocabulary *)

(** A character that opens or closes markup or an attribute value. *)
Definition markup (c : N) : bool :=
  N.eqb c Sanitizer.LT || N.eqb c Sanitizer.GT || N.eqb c Sanitizer.QUOT
  || N.eqb c Sanitizer.APOS || N.eqb c Sanitizer.SLASH.

Definition markup_free (s : jsstring) : Prop :=
  Forall (fun c => markup c = false) s.

Definition data_markup_free (d : SanitizedData) : Prop :=
  markup_free (s_name d) /\ markup_free (s_email d)
  /\ markup_free (s_phone d) /\ markup_free (s_company d)
  /\ markup_free (s_service d) /\ markup_free (s_message d).

(** A lower-case hexadecimal digit. *)
Definition is_lower_hex (c : N) : bool :=
  ((48 <=? c) && (c <=? 57) || (97 <=? c) && (c <=? 102))%N.

(** The document is one of the two that the contact handler builds for a
    submission that has passed field validation. *)
Definition dispatched (env : ProcessEnv) (m : MailOptions) : Prop :=
  exists b : ContactBody,
    fieldValidation b = None
    /\ (m = companyMailOptions env (sanitize b)
        \/ m = customerMailOptions env b (sanitize b)).

(** Some issuance among the events drew the bytes that print as [tok]. *)
Definition issued_by (tok : jsstring) (evs : list Event) : Prop :=
  exists ip randomBytes,
    GetCsrfToken ip randomBytes ∈ evs /\ toHex randomBytes = tok.

Module SampleForm.

Definition fields : ContactForm.FormFields :=
  {| ContactForm.f_name := lit "X";
     ContactForm.f_email := lit "a@b.co";
     ContactForm.f_phone := lit "(555) 010-9999";
     ContactForm.f_company := [];
     ContactForm.f_service := [];
     ContactForm.f_message := lit "hi" |}.

(** The same fields with the e-mail field left empty. *)
Definition blank_email : ContactForm.FormFields :=
  {| ContactForm.f_name := lit "X";
     ContactForm.f_email := [];
     ContactForm.f_phone := [];
     ContactForm.f_company := [];
     ContactForm.f_service := [];
     ContactForm.f_message := lit "hi" |}.

(** An environment without the mail password. *)
Definition incomplete_env : ProcessEnv :=
  {| EMAIL_USER := Some (lit "relay@coa.example");
     EMAIL_PASSWORD := None;
     COMPANY_EMAIL := Some (lit "office@coa.example") |}.

(** A second draw of random bytes. *)
Definition other_bytes : list N := map N.of_nat (seq 32 32).

(** The server after the verification of the transport and one
    issuance. *)
Definition issuedW : World :=
  snd (getCsrfToken Sample.clock Sample.address Sample.randomBytes
         Sample.ready).

(** Startup, verification, issuance and one submission. *)
Definition session : list Event :=
  [TransporterVerified false;
   GetCsrfToken Sample.address Sample.randomBytes;
   PostContact Sample.with_token].

Definition with_other_token : Request :=
  {| ip := Sample.address; x_csrf_token := Some (toHex other_bytes);
     body := Sample.submission |}.

(** A request of a second address, and the two addresses taking turns,
    six requests each. *)
Definition neighbour : Request :=
  {| ip := lit "198.51.100.4"; x_csrf_token := None;
     body := Sample.submission |}.

Definition taking_turns : list Event :=
  flat_map (fun _ : nat => [PostContact Sample.without_token;
                            PostContact neighbour]) (seq 0 6).

End SampleForm.

(** * Properties *)

(** ** Sanitizer *)

Module SanitizerFacts.
Import Sanitizer.

Lemma replaceAll_app c ent s1 s2 :
  replaceAll c ent (s1 ++ s2) = replaceAll c ent s1 ++ replaceAll c ent s2.
Proof. unfold replaceAll. apply flat_map_app. Qed.

Lemma six_passes_app s1 s2 :
  six_passes (s1 ++ s2) = six_passes s1 ++ six_passes s2.
Proof. unfold six_passes. now rewrite !replaceAll_app. Qed.

Lemma replaceAll_other c ent x :
  N.eqb x c = false -> replaceAll c ent [x] = [x].
Proof. intros H. unfold replaceAll. simpl. now rewrite H. Qed.

Lemma six_passes_char x : six_passes [x] = escape_char x.
Proof.
  unfold escape_char.
  destruct (N.eqb_spec x AMP) as [-> | H1]; [reflexivity |].
  destruct (N.eqb_spec x LT) as [-> | H2]; [reflexivity |].
  destruct (N.eqb_spec x GT) as [-> | H3]; [reflexivity |].
  destruct (N.eqb_spec x QUOT) as [-> | H4]; [reflexivity |].
  destruct (N.eqb_spec x APOS) as [-> | H5]; [reflexivity |].
  destruct (N.eqb_spec x SLASH) as [-> | H6]; [reflexivity |].
  unfold six_passes.
  apply N.eqb_neq in H1, H2, H3, H4, H5, H6.
  now rewrite !replaceAll_other.
Qed.

Lemma six_passes_single_pass s : six_passes s = escape_single_pass s.
Proof.
  induction s as [| x s IH]; [reflexivity |].
  change (x :: s) with ([x] ++ s).
  rewrite six_passes_app, six_passes_char, IH. reflexivity.
Qed.

Lemma sanitizeHtml_single_pass s :
  sanitizeHtml (Some s) = escape_single_pass s.
Proof.
  destruct s as [| x s]; [reflexivity |].
  apply (six_passes_single_pass (x :: s)).
Qed.

Lemma escape_char_plain c : special c = false -> escape_char c = [c].
Proof.
  unfold special, escape_char. intros H.
  repeat (apply orb_false_elim in H as [H ?]).
  now repeat match goal with E : N.eqb _ _ = false |- _ => rewrite E; clear E end.
Qed.

Lemma escape_plain s :
  Forall (fun c => special c = false) s -> escape_single_pass s = s.
Proof.
  induction 1 as [| c s Hc _ IH]; [reflexivity |].
  unfold escape_single_pass in *. simpl.
  rewrite (escape_char_plain c Hc), IH. reflexivity.
Qed.

Lemma escape_char_length c : (1 <= length (escape_char c))%nat.
Proof.
  unfold escape_char.
  repeat (destruct (N.eqb _ _); [simpl; lia |]). simpl; lia.
Qed.

Lemma escape_length s : (length s <= length (escape_single_pass s))%nat.
Proof.
  induction s as [| c s IH]; [simpl; lia |].
  unfold escape_single_pass in *. simpl. rewrite length_app.
  pose proof (escape_char_length c). lia.
Qed.

Lemma escape_amp_longer s :
  AMP ∈ s -> (length s < length (escape_single_pass s))%nat.
Proof.
  induction s as [| c s IH]; intros Hin.
  - now apply elem_of_nil in Hin.
  - unfold escape_single_pass in *. simpl. rewrite length_app.
    apply elem_of_cons in Hin as [<- | Hin].
    + pose proof (escape_length s) as Hs.
      unfold escape_single_pass in Hs. simpl. lia.
    + pose proof (escape_char_length c). specialize (IH Hin). lia.
Qed.

Lemma escape_keeps_amp s : AMP ∈ s -> AMP ∈ escape_single_pass s.
Proof.
  induction s as [| c s IH]; intros Hin.
  - now apply elem_of_nil in Hin.
  - unfold escape_single_pass in *. simpl. apply elem_of_app.
    apply elem_of_cons in Hin as [<- | Hin].
    + left. simpl. apply elem_of_cons. now left.
    + right. now apply IH.
Qed.

(** C4: on every string the six successive replacements of
    [sanitizeHtml] give the result of one left-to-right pass that maps
    ampersand, less-than, greater-than, double quote, apostrophe and
    slash to [&amp; &lt; &gt; &quot; &#x27; &#x2F;] and every other
    character to itself; an absent input gives the empty string. *)
Theorem sanitizeHtml_is_single_pass :
  (forall s : jsstring, sanitizeHtml (Some s) = escape_single_pass s)
  /\ sanitizeHtml None = []
  /\ escape_char AMP = lit "&amp;"
  /\ escape_char LT = lit "&lt;"
  /\ escape_char GT = lit "&gt;"
  /\ escape_char QUOT = lit "&quot;"
  /\ escape_char APOS = lit "&#x27;"
  /\ escape_char SLASH = lit "&#x2F;"
  /\ (forall c : N,
        c <> AMP -> c <> LT -> c <> GT -> c <> QUOT -> c <> APOS ->
        c <> SLASH -> escape_char c = [c]).
Proof.
  split; [exact sanitizeHtml_single_pass |].
  repeat (split; [reflexivity |]).
  intros c H1 H2 H3 H4 H5 H6. apply escape_char_plain. unfold special.
  apply N.eqb_neq in H1, H2, H3, H4, H5, H6.
  now rewrite H1, H2, H3, H4, H5, H6.
Qed.

(** C5: a string with none of the six special characters is left as it
    is by [sanitizeHtml], so sanitizing it twice is sanitizing it once;
    for a string with an ampersand the second sanitization changes the
    result of the first. *)
Theorem sanitizeHtml_idempotence (x : jsstring) :
  (Forall (fun c => special c = false) x ->
     sanitizeHtml (Some x) = x
     /\ sanitizeHtml (Some (sanitizeHtml (Some x))) = sanitizeHtml (Some x))
  /\ (AMP ∈ x ->
        sanitizeHtml (Some (sanitizeHtml (Some x))) <> sanitizeHtml (Some x)).
Proof.
  split.
  - intros Hplain. rewrite !sanitizeHtml_single_pass.
    rewrite (escape_plain x Hplain). split; [reflexivity |].
    now apply escape_plain.
  - intros Hamp. rewrite !sanitizeHtml_single_pass. intros Heq.
    pose proof (escape_amp_longer _ (escape_keeps_amp _ Hamp)) as Hlen.
    rewrite Heq in Hlen. lia.
Qed.

Lemma sanitizeHtml_idempotence_witness :
  (sanitizeHtml (Some (lit "COA Services")) = lit "COA Services"
   /\ sanitizeHtml (Some (sanitizeHtml (Some (lit "COA Services"))))
      = sanitizeHtml (Some (lit "COA Services")))
  /\ sanitizeHtml (Some (sanitizeHtml (Some (lit "R&D"))))
     <> sanitizeHtml (Some (lit "R&D")).
Proof.
  split.
  - apply (proj1 (sanitizeHtml_idempotence (lit "COA Services"))).
    repeat constructor.
  - apply (proj2 (sanitizeHtml_idempotence (lit "R&D"))).
    apply list_elem_of_In. vm_compute. tauto.
Defined.

End SanitizerFacts.

(** ** The e-mail pattern *)

Module RegexFacts.
Import Regex.

Ltac invert H := inversion H; subst; clear H.

Lemma seq_inv r1 r2 s :
  matches (RSeq r1 r2) s ->
  exists s1 s2, s1 ++ s2 = s /\ matches r1 s1 /\ matches r2 s2.
Proof. intros H. invert H. eauto. Qed.

Lemma nullable_spec r : nullable r = true <-> matches r [].
Proof.
  induction r as [| | p | r1 IH1 r2 IH2 | r1 IH1 r2 IH2 | r IH]; simpl.
  - split; [discriminate | inversion 1].
  - split; [constructor | reflexivity].
  - split; [discriminate | inversion 1].
  - rewrite andb_true_iff, IH1, IH2. split.
    + intros [H1 H2]. apply (MSeq _ _ [] [] H1 H2).
    + inversion 1 as [| | ? ? s1 s2 H1 H2 E1 E2 | | | |].
      apply app_eq_nil in E2 as [-> ->]. now split.
  - rewrite orb_true_iff, IH1, IH2. split.
    + intros [H | H]; [now apply MAltL | now apply MAltR].
    + inversion 1; [now left | now right].
  - split; [constructor | reflexivity].
Qed.

Lemma star_cons_inv r c s :
  matches (RStar r) (c :: s) ->
  exists s1 s2, s = s1 ++ s2 /\ matches r (c :: s1) /\ matches (RStar r) s2.
Proof.
  intros H. remember (RStar r) as e eqn:He. remember (c :: s) as t eqn:Ht.
  revert s Ht.
  induction H as [| | | | | | r' s1 s2 H1 _ H2 IH2]; intros u Ht;
    try discriminate.
  injection He as ->.
  destruct s1 as [| c1 s1]; simpl in Ht.
  - now apply IH2.
  - injection Ht as <- <-. now exists s1, s2.
Qed.

Lemma deriv_spec c r s : matches (deriv c r) s <-> matches r (c :: s).
Proof.
  revert s.
  induction r as [| | p | r1 IH1 r2 IH2 | r1 IH1 r2 IH2 | r IH];
    intros s; simpl.
  - split; intros H; invert H.
  - split; intros H; invert H.
  - destruct (p c) eqn:Hp; split; intros H; invert H.
    + now constructor.
    + constructor.
    + congruence.
  - split.
    + destruct (nullable r1) eqn:Hn; intros H; invert H.
      * match goal with H : matches (RSeq _ _) _ |- _ => invert H end.
        change (matches (RSeq r1 r2) ((c :: s1) ++ s2)).
        constructor; [now apply IH1 | assumption].
      * apply nullable_spec in Hn.
        apply (MSeq _ _ [] (c :: s) Hn). now apply IH2.
      * change (matches (RSeq r1 r2) ((c :: s1) ++ s2)).
        constructor; [now apply IH1 | assumption].
    + intros H. apply seq_inv in H as (s1 & s2 & E & H1 & H2).
      destruct s1 as [| c1 s1]; simpl in E.
      * subst s2. apply nullable_spec in H1. rewrite H1.
        apply MAltR. now apply IH2.
      * injection E as <- <-. apply IH1 in H1.
        destruct (nullable r1); [apply MAltL |]; now constructor.
  - split; intros H; invert H;
      solve [apply MAltL; now apply IH1 | apply MAltR; now apply IH2].
  - split.
    + intros H. invert H.
      change (matches (RStar r) ((c :: s1) ++ s2)).
      constructor; [now apply IH | assumption].
    + intros H. apply star_cons_inv in H as (s1 & s2 & -> & H1 & H2).
      constructor; [now apply IH | exact H2].
Qed.

(** The matcher decides membership in the language of the pattern. *)
Lemma test_spec r s : test r s = true <-> matches r s.
Proof.
  revert r. induction s as [| c s IH]; intros r; simpl.
  - apply nullable_spec.
  - rewrite IH. apply deriv_spec.
Qed.

Lemma star_class_spec p s :
  matches (RStar (RClass p)) s <-> Forall (fun c => p c = true) s.
Proof.
  split.
  - intros H. remember (RStar (RClass p)) as e eqn:He.
    induction H as [| | | | | | r s1 s2 H1 _ H2 IH2]; try discriminate.
    + constructor.
    + injection He as ->. inversion H1; subst. simpl.
      constructor; [assumption | now apply IH2].
  - induction 1 as [| c s Hc _ IH]; [constructor |].
    apply (MStarApp _ [c] s); [now constructor | exact IH].
Qed.

Lemma plus_class_spec p s :
  matches (RPlus (RClass p)) s
  <-> s <> [] /\ Forall (fun c => p c = true) s.
Proof.
  unfold RPlus. split.
  - inversion 1 as [| | ? ? s1 s2 H1 H2 | | | |]; subst.
    inversion H1; subst. apply star_class_spec in H2. simpl.
    split; [discriminate | now constructor].
  - intros [Hne Hall]. destruct Hall as [| c s Hc Hs]; [congruence |].
    apply (MSeq _ _ [c] s); [now constructor | now apply star_class_spec].
Qed.

Lemma class_eqb_spec a s : matches (RClass (N.eqb a)) s <-> s = [a].
Proof.
  split.
  - inversion 1 as [| ? c Hc | | | | |]; subst.
    apply N.eqb_eq in Hc. now subst.
  - intros ->. constructor. apply N.eqb_refl.
Qed.

(** The pattern of the source denotes the shape of the specification. *)
Lemma emailRegex_shape s : test emailRegex s = true <-> email_shape s.
Proof.
  rewrite test_spec. unfold emailRegex, email_shape. split.
  - intros H.
    apply seq_inv in H as (u & t1 & <- & Hu & H).
    apply seq_inv in H as (a & t2 & <- & Ha & H).
    apply seq_inv in H as (v & t3 & <- & Hv & H).
    apply seq_inv in H as (d & w & <- & Hd & Hw).
    apply class_eqb_spec in Ha, Hd. subst a d.
    apply plus_class_spec in Hu as [? ?], Hv as [? ?], Hw as [? ?].
    exists u, v, w. simpl. auto 10.
  - intros (u & v & w & -> & Hu & Hv & Hw & Fu & Fv & Fw).
    apply MSeq; [now apply plus_class_spec |].
    apply (MSeq _ _ [AT]); [now apply class_eqb_spec |].
    apply MSeq; [now apply plus_class_spec |].
    apply (MSeq _ _ [DOT]); [now apply class_eqb_spec |].
    now apply plus_class_spec.
Qed.

End RegexFacts.

(** ** Field validation *)

Module ValidatorFacts.
Import Regex.

Lemma falsy_spec v : falsy v = true <-> absent_or_empty v.
Proof.
  unfold absent_or_empty. destruct v as [[| c s] |]; simpl; split;
    try tauto; try discriminate; intros [H | H]; discriminate.
Qed.

Lemma falsy_false v : falsy v = false <-> ~ absent_or_empty v.
Proof.
  rewrite <- falsy_spec. destruct (falsy v); split; congruence.
Qed.

Lemma fieldValidation_required b :
  ~ absent_or_empty (name b) -> ~ absent_or_empty (email b) ->
  ~ absent_or_empty (message b) ->
  fieldValidation b
  = if test emailRegex (String_of (email b)) then None
    else Some invalidEmailFormat.
Proof.
  intros Hn He Hm. apply falsy_false in Hn, He, Hm.
  unfold fieldValidation. rewrite Hn, He, Hm. simpl.
  now destruct (test emailRegex _).
Qed.

(** C6: field validation answers [missingRequiredField] when [name],
    [email] or [message] is absent or empty; otherwise it answers
    [invalidEmailFormat] exactly when [email] does not have the shape
    of the pattern, and passes when it has; [not-an-email] is rejected
    for its format, the submission X / a@b.co / hi passes, and the
    outcome never depends on [phone], [company] or [service]. *)
Theorem fieldValidation_spec :
  (forall b : ContactBody,
      absent_or_empty (name b) \/ absent_or_empty (email b)
      \/ absent_or_empty (message b) ->
      fieldValidation b = Some missingRequiredField)
  /\ (forall (b : ContactBody) (e : jsstring),
        ~ absent_or_empty (name b) -> ~ absent_or_empty (message b) ->
        email b = Some e -> e <> [] ->
        (~ email_shape e -> fieldValidation b = Some invalidEmailFormat)
        /\ (email_shape e -> fieldValidation b = None))
  /\ (forall b : ContactBody,
        ~ absent_or_empty (name b) -> ~ absent_or_empty (message b) ->
        email b = Some (lit "not-an-email") ->
        fieldValidation b = Some invalidEmailFormat)
  /\ (forall ph co sv : jsvalue,
        fieldValidation
          {| name := Some (lit "X"); email := Some (lit "a@b.co");
             phone := ph; company := co; service := sv;
             message := Some (lit "hi") |} = None)
  /\ (forall (b : ContactBody) (ph co sv : jsvalue),
        fieldValidation
          {| name := name b; email := email b;
             phone := ph; company := co; service := sv;
             message := message b |} = fieldValidation b)
  /\ missingRequiredField <> invalidEmailFormat.
Proof.
  split; [| split; [| split; [| split; [| split]]]].
  - intros b H. unfold fieldValidation.
    rewrite <- !falsy_spec in H.
    destruct H as [-> | [-> | ->]]; simpl;
      rewrite ?orb_true_r; reflexivity.
  - intros b e Hn Hm He Hne.
    assert (Hem : ~ absent_or_empty (email b)).
    { rewrite He. intros [? | ?]; congruence. }
    rewrite (fieldValidation_required b Hn Hem Hm), He. simpl.
    split; intros Hshape.
    + destruct (test emailRegex e) eqn:Ht; [| reflexivity].
      apply RegexFacts.emailRegex_shape in Ht. contradiction.
    + apply RegexFacts.emailRegex_shape in Hshape. now rewrite Hshape.
  - intros b Hn Hm He.
    assert (Hem : ~ absent_or_empty (email b)).
    { rewrite He. intros [? | ?]; discriminate. }
    rewrite (fieldValidation_required b Hn Hem Hm), He. reflexivity.
  - reflexivity.
  - reflexivity.
  - discriminate.
Qed.

Lemma fieldValidation_spec_witness :
  fieldValidation
    {| name := Some (lit "X"); email := None; phone := None;
       company := None; service := None; message := Some (lit "hi") |}
  = Some missingRequiredField
  /\ fieldValidation
       {| name := Some (lit "X"); email := Some (lit "a@b"); phone := None;
          company := None; service := None; message := Some (lit "hi") |}
     = Some invalidEmailFormat
  /\ fieldValidation
       {| name := Some (lit "X"); email := Some (lit "a@b.co");
          phone := None; company := None; service := None;
          message := Some (lit "hi") |}
     = None
  /\ fieldValidation
       {| name := Some (lit "X"); email := Some (lit "not-an-email");
          phone := None; company := None; service := None;
          message := Some (lit "hi") |}
     = Some invalidEmailFormat.
Proof.
  pose proof fieldValidation_spec as (Hmiss & Hfmt & Hnot & _).
  assert (Hx : ~ absent_or_empty (Some (lit "X")))
    by (intros [H | H]; discriminate).
  assert (Hhi : ~ absent_or_empty (Some (lit "hi")))
    by (intros [H | H]; discriminate).
  split; [| split; [| split]].
  - apply Hmiss. simpl. right; left; now left.
  - apply (Hfmt {| name := Some (lit "X"); email := Some (lit "a@b");
                   phone := None; company := None; service := None;
                   message := Some (lit "hi") |} (lit "a@b") Hx Hhi eq_refl).
    + discriminate.
    + intros Hs. apply RegexFacts.emailRegex_shape in Hs. discriminate Hs.
  - apply (Hfmt {| name := Some (lit "X"); email := Some (lit "a@b.co");
                   phone := None; company := None; service := None;
                   message := Some (lit "hi") |}
                (lit "a@b.co") Hx Hhi eq_refl).
    + discriminate.
    + apply RegexFacts.emailRegex_shape. reflexivity.
  - apply Hnot; [exact Hx | exact Hhi | reflexivity].
Defined.

End ValidatorFacts.

(** ** The token map *)

Module JsMapFacts.
Section WithValues.
Context {V : Type}.
Implicit Types (m : JsMap.t V) (k : jsstring) (v : V).

Lemma get_set_eq k v m : JsMap.get k (JsMap.set k v m) = Some v.
Proof.
  induction m as [| [k' v'] m IH]; simpl.
  - now rewrite decide_True.
  - destruct (decide (k' = k)) as [-> | Hne]; simpl.
    + now rewrite decide_True.
    + now rewrite decide_False.
Qed.

Lemma get_set_ne k k' v m :
  k <> k' -> JsMap.get k (JsMap.set k' v m) = JsMap.get k m.
Proof.
  intros Hne. induction m as [| [k0 v0] m IH]; simpl.
  - now rewrite decide_False.
  - destruct (decide (k0 = k')) as [-> | Hne']; simpl.
    + now rewrite !decide_False.
    + now rewrite IH.
Qed.

Lemma get_delete_eq k m : JsMap.get k (JsMap.delete k m) = None.
Proof.
  induction m as [| [k' v'] m IH]; simpl; [reflexivity |].
  destruct (decide (k' = k)) as [-> | Hne]; simpl; [exact IH |].
  now rewrite decide_False.
Qed.

Lemma get_delete_ne k k' m :
  k <> k' -> JsMap.get k (JsMap.delete k' m) = JsMap.get k m.
Proof.
  intros Hne. induction m as [| [k0 v0] m IH]; simpl; [reflexivity |].
  destruct (decide (k0 = k')) as [-> | Hne']; simpl.
  - now rewrite decide_False.
  - now rewrite IH.
Qed.

Lemma get_delete_absent k k' m :
  JsMap.get k m = None -> JsMap.get k (JsMap.delete k' m) = None.
Proof.
  intros H. destruct (decide (k = k')) as [-> | Hne].
  - apply get_delete_eq.
  - now rewrite get_delete_ne.
Qed.

Lemma has_get k m :
  JsMap.has k m = false <-> JsMap.get k m = None.
Proof. unfold JsMap.has. destruct (JsMap.get k m); split; congruence. Qed.

Lemma get_None_keys k m : JsMap.get k m = None <-> k ∉ map fst m.
Proof.
  induction m as [| [k' v'] m IH]; simpl.
  - split; [intros _; apply not_elem_of_nil | reflexivity].
  - rewrite not_elem_of_cons, <- IH.
    destruct (decide (k' = k)) as [-> | Hne]; split;
      try discriminate; intuition congruence.
Qed.

Lemma keys_delete k k' m :
  k ∈ map fst (JsMap.delete k' m) -> k ∈ map fst m.
Proof.
  induction m as [| [k0 v0] m IH]; simpl; [tauto |].
  destruct (decide (k0 = k')); simpl; rewrite ?elem_of_cons; intuition.
Qed.

Lemma unique_keys_delete k m :
  unique_keys m -> unique_keys (JsMap.delete k m).
Proof.
  unfold unique_keys.
  induction m as [| [k0 v0] m IH]; simpl; [tauto |].
  rewrite NoDup_cons. intros [Hnin Hnd].
  destruct (decide (k0 = k)); simpl; [now apply IH |].
  apply NoDup_cons. split; [| now apply IH].
  intros Hin. now apply Hnin, (keys_delete _ k).
Qed.

Lemma keys_set k k' v m :
  k ∈ map fst (JsMap.set k' v m) -> k = k' \/ k ∈ map fst m.
Proof.
  induction m as [| [k0 v0] m IH]; simpl.
  - rewrite elem_of_cons. intros [-> | H]; [now left | now right].
  - destruct (decide (k0 = k')) as [-> | Hne]; simpl;
      rewrite !elem_of_cons; intuition.
Qed.

Lemma unique_keys_set k v m :
  unique_keys m -> unique_keys (JsMap.set k v m).
Proof.
  unfold unique_keys.
  induction m as [| [k0 v0] m IH]; simpl.
  - intros _. apply NoDup_singleton.
  - rewrite NoDup_cons. intros [Hnin Hnd].
    destruct (decide (k0 = k)) as [-> | Hne]; simpl.
    + apply NoDup_cons. now split.
    + apply NoDup_cons. split; [| now apply IH].
      intros Hin. apply keys_set in Hin as [-> | Hin]; tauto.
Qed.

(** In a map with unique keys an entry is what [get] returns. *)
Lemma unique_keys_entry k v m :
  unique_keys m -> (k, v) ∈ m -> JsMap.get k m = Some v.
Proof.
  unfold unique_keys.
  induction m as [| [k0 v0] m IH]; simpl.
  - intros _ H. now apply elem_of_nil in H.
  - rewrite NoDup_cons, elem_of_cons. intros [Hnin Hnd] [Heq | Hin].
    + injection Heq as -> ->. now rewrite decide_True.
    + destruct (decide (k0 = k)) as [-> | Hne]; [| now apply IH].
      exfalso. apply Hnin. apply list_elem_of_fmap.
      now exists (k, v).
Qed.
End WithValues.
End JsMapFacts.

(** ** The handlers, one at a time *)

Section HandlerFacts.
Context (clock : nat -> Z).
Context (transport : nat -> MailOptions -> bool).
Context (env : ProcessEnv).

Import JsMapFacts.

(** *** The rate limiter touches only its own table and the clock. *)

Lemma contactLimiter_frame req w :
  let w' := snd (contactLimiter clock req w) in
  csrfTokens w' = csrfTokens w
  /\ emailConfigValid w' = emailConfigValid w
  /\ sendCalls w' = sendCalls w
  /\ ticks w' = S (ticks w).
Proof.
  unfold contactLimiter, bind, gets, modify, ret, Date_now. simpl.
  destruct (_ <? _); simpl; auto.
Qed.

(** *** The expiry sweep *)

Lemma sweep_frame entries w :
  let w' := snd (sweep clock entries w) in
  emailConfigValid w' = emailConfigValid w
  /\ limiterHits w' = limiterHits w
  /\ sendCalls w' = sendCalls w
  /\ ticks w' = (ticks w + length entries)%nat.
Proof.
  revert w. induction entries as [| [key value] rest IH]; intros w; simpl.
  - repeat split; lia.
  - unfold bind, Date_now. simpl.
    destruct (expires value <? clock (ticks w)); simpl;
      unfold modify, ret; simpl;
      match goal with |- context [sweep clock rest ?w0] =>
        destruct (IH w0) as (-> & -> & -> & ->) end;
      simpl; repeat split; lia.
Qed.

Lemma sweep_absent entries w k :
  JsMap.get k (csrfTokens w) = None ->
  JsMap.get k (csrfTokens (snd (sweep clock entries w))) = None.
Proof.
  revert w. induction entries as [| [key value] rest IH]; intros w H; simpl.
  - exact H.
  - unfold bind, Date_now. simpl.
    destruct (expires value <? clock (ticks w)); simpl;
      unfold modify, ret; simpl; apply IH; simpl; [| exact H].
    now apply get_delete_absent.
Qed.

Lemma sweep_unique_keys entries w :
  unique_keys (csrfTokens w) ->
  unique_keys (csrfTokens (snd (sweep clock entries w))).
Proof.
  revert w. induction entries as [| [key value] rest IH]; intros w H; simpl.
  - exact H.
  - unfold bind, Date_now. simpl.
    destruct (expires value <? clock (ticks w)); simpl;
      unfold modify, ret; simpl; apply IH; simpl; [| exact H].
    now apply unique_keys_delete.
Qed.

(** An entry whose expiry no clock reading of the sweep exceeds stays. *)
Lemma sweep_keeps entries w k v (bound : nat) :
  (forall v', (k, v') ∈ entries -> v' = v) ->
  (forall n, (n < bound)%nat -> clock n <= expires v) ->
  (ticks w + length entries <= bound)%nat ->
  JsMap.get k (csrfTokens (snd (sweep clock entries w)))
  = JsMap.get k (csrfTokens w).
Proof.
  revert w.
  induction entries as [| [key value] rest IH]; intros w Hv Hclk Hlen;
    simpl in *.
  - reflexivity.
  - unfold bind, Date_now. simpl.
    assert (Hrest : forall v', (k, v') ∈ rest -> v' = v).
    { intros v' Hin. apply Hv. now apply elem_of_cons; right. }
    destruct (expires value <? clock (ticks w)) eqn:Hexp; simpl;
      unfold modify, ret; simpl; rewrite IH; simpl; auto; try lia.
    apply get_delete_ne. intros ->.
    assert (value = v) as -> by (apply Hv; apply elem_of_cons; now left).
    apply Z.ltb_lt in Hexp. specialize (Hclk (ticks w)). lia.
Qed.

(** *** Token issuance *)

Lemma getCsrfToken_unfold ip randomBytes w :
  let stored :=
    set_csrfTokens (JsMap.set (toHex randomBytes) (issued clock ip w))
      (tick (tick w)) in
  getCsrfToken clock ip randomBytes w
  = ({| status := 200; json := JToken (toHex randomBytes) |},
     snd (sweep clock (csrfTokens stored) stored)).
Proof.
  unfold getCsrfToken, bind, gets, modify, ret, Date_now. simpl.
  destruct (sweep clock _ _) as [[] w']. reflexivity.
Qed.

Lemma getCsrfToken_frame ip randomBytes w :
  let w' := snd (getCsrfToken clock ip randomBytes w) in
  emailConfigValid w' = emailConfigValid w
  /\ limiterHits w' = limiterHits w
  /\ sendCalls w' = sendCalls w
  /\ (ticks w <= ticks w')%nat.
Proof.
  rewrite getCsrfToken_unfold. simpl.
  match goal with |- context [sweep clock ?es ?w0] =>
    destruct (sweep_frame es w0) as (-> & -> & -> & ->) end.
  simpl. repeat split; lia.
Qed.

Lemma getCsrfToken_absent ip randomBytes w k :
  toHex randomBytes <> k ->
  JsMap.get k (csrfTokens w) = None ->
  JsMap.get k (csrfTokens (snd (getCsrfToken clock ip randomBytes w)))
  = None.
Proof.
  intros Hne H. rewrite getCsrfToken_unfold. simpl.
  apply sweep_absent. simpl. rewrite get_set_ne; auto.
Qed.

Lemma getCsrfToken_unique_keys ip randomBytes w :
  unique_keys (csrfTokens w) ->
  unique_keys (csrfTokens (snd (getCsrfToken clock ip randomBytes w))).
Proof.
  intros H. rewrite getCsrfToken_unfold. simpl.
  apply sweep_unique_keys. simpl. now apply unique_keys_set.
Qed.

(** An issuance keeps the entries that none of its clock readings has
    seen expire. *)
Lemma getCsrfToken_keeps ip randomBytes w k v (bound : nat) :
  unique_keys (csrfTokens w) ->
  toHex randomBytes <> k ->
  JsMap.get k (csrfTokens w) = Some v ->
  (forall n, (n < bound)%nat -> clock n <= expires v) ->
  (ticks (snd (getCsrfToken clock ip randomBytes w)) <= bound)%nat ->
  JsMap.get k (csrfTokens (snd (getCsrfToken clock ip randomBytes w)))
  = Some v.
Proof.
  intros Hu Hne Hget Hclk. rewrite getCsrfToken_unfold. simpl.
  set (m := JsMap.set (toHex randomBytes) (issued clock ip w) (csrfTokens w)).
  set (w0 := set_csrfTokens _ _).
  destruct (sweep_frame m w0) as (_ & _ & _ & Ht). simpl in Ht.
  intros Hb. rewrite (sweep_keeps m w0 k v bound); auto.
  - subst w0 m. simpl. rewrite get_set_ne; auto.
  - intros v' Hin. subst m.
    pose proof (unique_keys_entry k v' _
                  (unique_keys_set (toHex randomBytes) _ _ Hu) Hin) as E.
    rewrite get_set_ne in E; congruence.
  - rewrite Ht in Hb. subst w0. simpl. lia.
Qed.

(** The token issued is stored with its one-hour expiry, provided no
    clock reading of the sweep is past that expiry. *)
Lemma getCsrfToken_stores ip randomBytes w (bound : nat) :
  unique_keys (csrfTokens w) ->
  (forall n, (n < bound)%nat -> clock n <= issued_expiry clock w) ->
  (ticks (snd (getCsrfToken clock ip randomBytes w)) <= bound)%nat ->
  JsMap.get (toHex randomBytes)
    (csrfTokens (snd (getCsrfToken clock ip randomBytes w)))
  = Some (issued clock ip w).
Proof.
  intros Hu Hclk. rewrite getCsrfToken_unfold. simpl.
  set (m := JsMap.set (toHex randomBytes) (issued clock ip w) (csrfTokens w)).
  set (w0 := set_csrfTokens _ _).
  destruct (sweep_frame m w0) as (_ & _ & _ & Ht). simpl in Ht.
  intros Hb.
  rewrite (sweep_keeps m w0 (toHex randomBytes) (issued clock ip w) bound);
    auto.
  - subst w0 m. simpl. apply get_set_eq.
  - intros v' Hin. subst m.
    pose proof (unique_keys_entry _ v' _
                  (unique_keys_set (toHex randomBytes)
                     (issued clock ip w) _ Hu) Hin) as E.
    rewrite get_set_eq in E. congruence.
  - rewrite Ht in Hb. subst w0. simpl. lia.
Qed.

(** *** CSRF validation *)

Lemma validateCsrf_missing req w :
  absent_or_empty (x_csrf_token req) ->
  validateCsrf clock req w = (Respond csrfInvalid, w).
Proof.
  intros H. apply ValidatorFacts.falsy_spec in H.
  unfold validateCsrf, bind, gets, ret. simpl. now rewrite H.
Qed.

Lemma validateCsrf_unknown req w tok :
  x_csrf_token req = Some tok ->
  JsMap.get tok (csrfTokens w) = None ->
  validateCsrf clock req w = (Respond csrfInvalid, w).
Proof.
  intros Htok H. apply has_get in H.
  unfold validateCsrf, bind, gets, ret. simpl. rewrite Htok. simpl.
  rewrite H. simpl. now rewrite orb_true_r.
Qed.

Lemma validateCsrf_present req w tok tokenData :
  x_csrf_token req = Some tok -> tok <> [] ->
  JsMap.get tok (csrfTokens w) = Some tokenData ->
  validateCsrf clock req w
  = (if expires tokenData <? clock (ticks w)
     then Respond csrfExpired else Next,
     set_csrfTokens (JsMap.delete tok) (tick w)).
Proof.
  intros Htok Hne H.
  unfold validateCsrf, bind, gets, modify, ret, Date_now, JsMap.has. simpl.
  rewrite Htok. simpl. rewrite H. simpl.
  destruct tok as [| c tok]; [congruence |]. simpl.
  now destruct (expires tokenData <? clock (ticks w)).
Qed.

Lemma validateCsrf_frame req w :
  let w' := snd (validateCsrf clock req w) in
  emailConfigValid w' = emailConfigValid w
  /\ limiterHits w' = limiterHits w
  /\ sendCalls w' = sendCalls w
  /\ (ticks w <= ticks w' <= S (ticks w))%nat
  /\ (csrfTokens w' = csrfTokens w
      \/ exists tok, x_csrf_token req = Some tok
                     /\ csrfTokens w' = JsMap.delete tok (csrfTokens w)).
Proof.
  destruct (x_csrf_token req) as [tok |] eqn:Htok.
  - destruct (JsMap.get tok (csrfTokens w)) as [td |] eqn:Hget.
    + destruct tok as [| c tok].
      * rewrite validateCsrf_missing by (right; exact Htok).
        simpl. repeat split; auto; lia.
      * rewrite (validateCsrf_present req w _ td Htok) by
          (auto; discriminate).
        simpl. repeat split; auto; try lia. right. eauto.
    + rewrite (validateCsrf_unknown req w tok) by auto.
      simpl. repeat split; auto; lia.
  - rewrite validateCsrf_missing by (left; exact Htok).
    simpl. repeat split; auto; lia.
Qed.

(** *** The contact handler *)

Lemma contactHandler_unfold req w :
  contactHandler transport env req w
  = if negb (emailConfigValid w) then (emailUnavailable, w)
    else
      match fieldValidation (body req) with
      | Some r => (r, w)
      | None =>
          let d := sanitize (body req) in
          let m1 := companyMailOptions env d in
          let m2 := customerMailOptions env (body req) d in
          let k := length (sendCalls w) in
          if transport k m1
          then
            if transport (S k) m2
            then (messageSent, log_send m2 true (log_send m1 true w))
            else (dispatchFailure, log_send m2 false (log_send m1 true w))
          else (dispatchFailure, log_send m1 false w)
      end.
Proof.
  unfold contactHandler, try_catch, bindT, retT, bind, gets, ret, sendMail.
  simpl.
  destruct (emailConfigValid w); simpl; [| reflexivity].
  destruct (fieldValidation (body req)); simpl; [reflexivity |].
  destruct (transport (length (sendCalls w)) _) eqn:E1; simpl;
    [| reflexivity].
  rewrite length_app. simpl. rewrite Nat.add_1_r.
  now destruct (transport (S (length (sendCalls w))) _).
Qed.

Lemma contactHandler_frame req w :
  let w' := snd (contactHandler transport env req w) in
  csrfTokens w' = csrfTokens w
  /\ emailConfigValid w' = emailConfigValid w
  /\ limiterHits w' = limiterHits w
  /\ ticks w' = ticks w.
Proof.
  rewrite contactHandler_unfold.
  destruct (negb _); [simpl; auto |].
  destruct (fieldValidation _); [simpl; auto |].
  simpl. repeat destruct (transport _ _); simpl; auto.
Qed.

(** *** The contact route *)

Lemma postContact_unfold req w :
  postContact clock transport env req w
  = match contactLimiter clock req w with
    | (Respond r, w1) => (([ContactLimiter], Some r), w1)
    | (Next, w1) =>
        match validateCsrf clock req w1 with
        | (Respond r, w2) => (([ContactLimiter; ValidateCsrf], Some r), w2)
        | (Next, w2) =>
            let (r, w3) := contactHandler transport env req w2 in
            (([ContactLimiter; ValidateCsrf; ContactHandler], Some r), w3)
        end
    end.
Proof.
  unfold postContact, contactRoute, dispatch, bind, ret.
  destruct (contactLimiter clock req w) as [[| r1] w1]; [| reflexivity].
  destruct (validateCsrf clock req w1) as [[| r2] w2]; [| reflexivity].
  destruct (contactHandler transport env req w2) as [r3 w3].
  reflexivity.
Qed.

End HandlerFacts.

(** ** Events and runs *)

Section RunFacts.
Context (clock : nat -> Z).
Context (transport : nat -> MailOptions -> bool).
Context (env : ProcessEnv).

Import JsMapFacts.

Local Abbreviation handleE := (handle clock transport env).
Local Abbreviation runE := (run clock transport env).
Local Abbreviation postContactE := (postContact clock transport env).

Lemma handle_PostContact req w :
  snd (handleE (PostContact req) w) = snd (postContactE req w).
Proof.
  unfold handle, bind, ret. now destruct (postContactE req w).
Qed.

Lemma handle_GetCsrfToken ip randomBytes w :
  snd (handleE (GetCsrfToken ip randomBytes) w)
  = snd (getCsrfToken clock ip randomBytes w).
Proof.
  unfold handle, bind, ret.
  now destruct (getCsrfToken clock ip randomBytes w).
Qed.

(** What a contact request does to the token store and to the clock. *)
Lemma postContact_store req w :
  let w' := snd (postContactE req w) in
  (ticks w <= ticks w')%nat
  /\ (csrfTokens w' = csrfTokens w
      \/ exists tok, x_csrf_token req = Some tok
                     /\ csrfTokens w' = JsMap.delete tok (csrfTokens w)).
Proof.
  rewrite postContact_unfold.
  pose proof (contactLimiter_frame clock req w) as (Hc1 & _ & _ & Ht1).
  destruct (contactLimiter clock req w) as [[| r1] w1]; simpl in *;
    [| split; [lia | now left]].
  pose proof (validateCsrf_frame clock req w1) as (_ & _ & _ & Ht2 & Hc2).
  destruct (validateCsrf clock req w1) as [[| r2] w2]; simpl in *.
  - pose proof (contactHandler_frame transport env req w2)
      as (Hc3 & _ & _ & Ht3).
    destruct (contactHandler transport env req w2) as [r3 w3]; simpl in *.
    rewrite Hc3, Ht3. rewrite <- Hc1. split; [lia | exact Hc2].
  - rewrite <- Hc1. split; [lia | exact Hc2].
Qed.

Lemma handle_ticks ev w : (ticks w <= ticks (snd (handleE ev w)))%nat.
Proof.
  destruct ev as [ip0 rb | req | err |].
  - rewrite handle_GetCsrfToken.
    now destruct (getCsrfToken_frame clock ip0 rb w) as (_ & _ & _ & ?).
  - rewrite handle_PostContact. apply postContact_store.
  - simpl. unfold transporterVerified, bind, modify, ret.
    destruct (validateEmailConfig env); simpl; lia.
  - simpl. lia.
Qed.

Lemma handle_unique_keys ev w :
  unique_keys (csrfTokens w) -> unique_keys (csrfTokens (snd (handleE ev w))).
Proof.
  intros Hu. destruct ev as [ip0 rb | req | err |].
  - rewrite handle_GetCsrfToken. now apply getCsrfToken_unique_keys.
  - rewrite handle_PostContact.
    destruct (postContact_store req w) as (_ & [-> | (tok & _ & ->)]);
      [exact Hu | now apply unique_keys_delete].
  - simpl. unfold transporterVerified, bind, modify, ret.
    now destruct (validateEmailConfig env).
  - exact Hu.
Qed.

(** Only the issuance of a token puts it into the store. *)
Lemma handle_absent tok ev w :
  issues tok ev = false ->
  JsMap.get tok (csrfTokens w) = None ->
  JsMap.get tok (csrfTokens (snd (handleE ev w))) = None.
Proof.
  intros Hi Hget. destruct ev as [ip0 rb | req | err |].
  - rewrite handle_GetCsrfToken. apply getCsrfToken_absent; [| exact Hget].
    simpl in Hi. now apply bool_decide_eq_false in Hi.
  - rewrite handle_PostContact.
    destruct (postContact_store req w) as (_ & [-> | (t & _ & ->)]);
      [exact Hget | now apply get_delete_absent].
  - simpl. unfold transporterVerified, bind, modify, ret.
    now destruct (validateEmailConfig env).
  - exact Hget.
Qed.

(** An entry stays as long as no request presents its token and no
    clock reading is past its expiry. *)
Lemma handle_keeps tok v (bound : nat) ev w :
  presents tok ev = false -> issues tok ev = false ->
  unique_keys (csrfTokens w) ->
  JsMap.get tok (csrfTokens w) = Some v ->
  (forall n, (n < bound)%nat -> clock n <= expires v) ->
  (ticks (snd (handleE ev w)) <= bound)%nat ->
  JsMap.get tok (csrfTokens (snd (handleE ev w))) = Some v.
Proof.
  intros Hp Hi Hu Hget Hclk. destruct ev as [ip0 rb | req | err |].
  - rewrite handle_GetCsrfToken. intros Hb.
    apply (getCsrfToken_keeps clock ip0 rb w tok v bound); auto.
    simpl in Hi. now apply bool_decide_eq_false in Hi.
  - rewrite handle_PostContact. intros _.
    destruct (postContact_store req w) as (_ & [-> | (t & Ht & ->)]);
      [exact Hget |].
    rewrite get_delete_ne; [exact Hget |].
    simpl in Hp. apply bool_decide_eq_false in Hp. congruence.
  - intros _. simpl. unfold transporterVerified, bind, modify, ret.
    now destruct (validateEmailConfig env).
  - intros _. exact Hget.
Qed.

Lemma run_cons ev evs w : runE (ev :: evs) w = runE evs (snd (handleE ev w)).
Proof. reflexivity. Qed.

Lemma run_ticks evs w : (ticks w <= ticks (runE evs w))%nat.
Proof.
  revert w. induction evs as [| ev evs IH]; intros w; [simpl; lia |].
  rewrite run_cons. pose proof (handle_ticks ev w). specialize (IH (snd (handleE ev w))).
  lia.
Qed.

Lemma run_unique_keys evs w :
  unique_keys (csrfTokens w) -> unique_keys (csrfTokens (runE evs w)).
Proof.
  revert w. induction evs as [| ev evs IH]; intros w H; [exact H |].
  rewrite run_cons. now apply IH, handle_unique_keys.
Qed.

Lemma run_absent tok evs w :
  Forall (fun ev => issues tok ev = false) evs ->
  JsMap.get tok (csrfTokens w) = None ->
  JsMap.get tok (csrfTokens (runE evs w)) = None.
Proof.
  intros Hall. revert w.
  induction Hall as [| ev evs Hev _ IH]; intros w H; [exact H |].
  rewrite run_cons. now apply IH, handle_absent.
Qed.

Lemma run_keeps tok v (bound : nat) evs w :
  Forall (fun ev => presents tok ev = false /\ issues tok ev = false) evs ->
  unique_keys (csrfTokens w) ->
  JsMap.get tok (csrfTokens w) = Some v ->
  (forall n, (n < bound)%nat -> clock n <= expires v) ->
  (ticks (runE evs w) <= bound)%nat ->
  JsMap.get tok (csrfTokens (runE evs w)) = Some v.
Proof.
  intros Hall. revert w.
  induction Hall as [| ev evs [Hp Hi] _ IH]; intros w Hu Hget Hclk Hb;
    [exact Hget |].
  rewrite run_cons in *. apply IH; auto.
  - now apply handle_unique_keys.
  - apply (handle_keeps tok v bound); auto.
    pose proof (run_ticks evs (snd (handleE ev w))). lia.
Qed.

Lemma toHex_nonempty randomBytes :
  length randomBytes = 32%nat -> toHex randomBytes <> [].
Proof. destruct randomBytes; simpl; [lia | discriminate]. Qed.

(** C1: a token returned by the issuance is accepted by the first
    validation that presents it, provided the clock reading of that
    validation is not past the recorded expiry; that validation removes
    it from the store, and every later validation of the same token is
    rejected, whatever the server has done in between short of issuing
    the very same string again. *)
Theorem issued_token_validates_once
    (ip0 : jsstring) (randomBytes : list N) (req : Request)
    (evs : list Event) (w : World) :
  (forall i j, (i <= j)%nat -> clock i <= clock j) ->
  unique_keys (csrfTokens w) ->
  length randomBytes = 32%nat ->
  x_csrf_token req = Some (toHex randomBytes) ->
  Forall (fun ev => presents (toHex randomBytes) ev = false
                    /\ issues (toHex randomBytes) ev = false) evs ->
  let issuance := getCsrfToken clock ip0 randomBytes w in
  let w2 := runE evs (snd issuance) in
  clock (ticks w2) <= issued_expiry clock w ->
  json (fst issuance) = JToken (toHex randomBytes)
  /\ exists w3,
       validateCsrf clock req w2 = (Next, w3)
       /\ JsMap.has (toHex randomBytes) (csrfTokens w3) = false
       /\ forall (later : list Event) (w3' : World),
            csrfTokens w3' = csrfTokens w3 ->
            Forall (fun ev => issues (toHex randomBytes) ev = false) later ->
            validateCsrf clock req (runE later w3')
            = (Respond csrfInvalid, runE later w3').
Proof.
  intros Hmono Hu Hlen Htok Hall issuance w2 Hexp.
  set (tok := toHex randomBytes) in *.
  assert (Hclk : forall n, (n < ticks w2)%nat ->
                           clock n <= expires (issued clock ip0 w)).
  { intros n Hn. simpl. etransitivity; [| exact Hexp].
    apply Hmono. lia. }
  assert (Hstored : JsMap.get tok (csrfTokens (snd issuance))
                    = Some (issued clock ip0 w)).
  { apply (getCsrfToken_stores clock ip0 randomBytes w (ticks w2)); auto.
    apply run_ticks. }
  assert (Hkept : JsMap.get tok (csrfTokens w2) = Some (issued clock ip0 w)).
  { apply (run_keeps tok _ (ticks w2)); auto.
    now apply getCsrfToken_unique_keys. }
  split.
  { subst issuance. now rewrite getCsrfToken_unfold. }
  exists (set_csrfTokens (JsMap.delete tok) (tick w2)).
  split; [| split].
  - rewrite (validateCsrf_present clock req w2 tok _ Htok
               (toHex_nonempty _ Hlen) Hkept).
    simpl. replace (_ <? _) with false; [reflexivity |].
    symmetry. apply Z.ltb_ge. exact Hexp.
  - apply has_get. simpl. apply get_delete_eq.
  - intros later w3' Hsame Hlater.
    apply (validateCsrf_unknown clock req _ tok Htok).
    apply run_absent; [exact Hlater |].
    rewrite Hsame. simpl. apply get_delete_eq.
Qed.

End RunFacts.

Lemma issued_token_validates_once_witness :
  let issuance :=
    getCsrfToken Sample.clock Sample.address Sample.randomBytes startup in
  let w2 :=
    run Sample.clock Sample.reachable Sample.env
      [GetHealth; PostContact Sample.without_token] (snd issuance) in
  json (fst issuance) = JToken Sample.token
  /\ exists w3,
       validateCsrf Sample.clock Sample.with_token w2 = (Next, w3)
       /\ JsMap.has Sample.token (csrfTokens w3) = false
       /\ forall (later : list Event) (w3' : World),
            csrfTokens w3' = csrfTokens w3 ->
            Forall (fun ev => issues Sample.token ev = false) later ->
            validateCsrf Sample.clock Sample.with_token
              (run Sample.clock Sample.reachable Sample.env later w3')
            = (Respond csrfInvalid,
               run Sample.clock Sample.reachable Sample.env later w3').
Proof.
  apply (issued_token_validates_once Sample.clock Sample.reachable Sample.env
           Sample.address Sample.randomBytes Sample.with_token
           [GetHealth; PostContact Sample.without_token] startup).
  - intros i j Hij. unfold Sample.clock. lia.
  - constructor.
  - reflexivity.
  - reflexivity.
  - repeat constructor.
  - vm_compute. discriminate.
Defined.

(** ** Where the entries of the store come from *)

Section StoreOrigin.
Context (clock : nat -> Z).
Context (transport : nat -> MailOptions -> bool).
Context (env : ProcessEnv).

Local Abbreviation handleO := (handle clock transport env).
Local Abbreviation runO := (run clock transport env).

Lemma entry_of_get {V} k (v : V) (m : JsMap.t V) :
  JsMap.get k m = Some v -> (k, v) ∈ m.
Proof.
  induction m as [| [k0 v0] m IH]; simpl; [discriminate |].
  destruct (decide (k0 = k)) as [-> | Hne].
  - intros [= ->]. apply elem_of_cons. now left.
  - intros H. apply elem_of_cons. right. now apply IH.
Qed.

Lemma entry_set {V} (e : jsstring * V) k v (m : JsMap.t V) :
  e ∈ JsMap.set k v m -> e = (k, v) \/ e ∈ m.
Proof.
  induction m as [| [k0 v0] m IH]; simpl.
  - rewrite elem_of_cons. intros [-> | H]; [now left | now right].
  - destruct (decide (k0 = k)) as [-> | Hne]; rewrite !elem_of_cons.
    + intros [-> | H]; [now left | right; now right].
    + intros [-> | H]; [right; now left |].
      apply IH in H as [-> | H]; [now left | right; now right].
Qed.

Lemma entry_delete {V} (e : jsstring * V) k (m : JsMap.t V) :
  e ∈ JsMap.delete k m -> e ∈ m.
Proof.
  induction m as [| [k0 v0] m IH]; simpl; [tauto |].
  destruct (decide (k0 = k)) as [-> | Hne]; rewrite !elem_of_cons.
  - intros H. right. now apply IH.
  - intros [-> | H]; [now left | right; now apply IH].
Qed.

(** The sweep adds nothing. *)
Lemma sweep_entries entries w e :
  e ∈ csrfTokens (snd (sweep clock entries w)) -> e ∈ csrfTokens w.
Proof.
  revert w. induction entries as [| [key value] rest IH]; intros w; simpl;
    [tauto |].
  unfold bind, Date_now. simpl.
  destruct (expires value <? clock (ticks w)); simpl;
    unfold modify, ret; simpl; intros H; apply IH in H; simpl in H;
    [now apply entry_delete in H | exact H].
Qed.

(** An event adds at most the record of the issuance it is. *)
Lemma handle_entries ev w e :
  e ∈ csrfTokens (snd (handleO ev w)) ->
  e ∈ csrfTokens w
  \/ exists ip0 randomBytes,
       ev = GetCsrfToken ip0 randomBytes
       /\ e = (toHex randomBytes, issued clock ip0 w).
Proof.
  destruct ev as [ip0 rb | req | err |].
  - rewrite handle_GetCsrfToken, getCsrfToken_unfold. simpl.
    intros H. apply sweep_entries in H. simpl in H.
    apply entry_set in H as [-> | H]; [right; eauto | now left].
  - rewrite handle_PostContact. intros H. left.
    destruct (postContact_store clock transport env req w)
      as (_ & [Hs | (tok & _ & Hs)]); rewrite Hs in H;
      [exact H | now apply entry_delete in H].
  - simpl. unfold transporterVerified, bind, modify, ret.
    destruct (validateEmailConfig env); simpl; auto.
  - simpl. auto.
Qed.

Lemma run_snoc evs ev w : runO (evs ++ [ev]) w = snd (handleO ev (runO evs w)).
Proof. unfold run. now rewrite fold_left_app. Qed.

(** Every entry of a store reached from startup is the record that one
    issuance of the run wrote: its key is the token drawn and its expiry
    is 3600000 ms after the second clock reading of that issuance. *)
Lemma run_entries evs k v :
  (k, v) ∈ csrfTokens (runO evs startup) ->
  exists pre ip0 randomBytes post,
    evs = pre ++ GetCsrfToken ip0 randomBytes :: post
    /\ k = toHex randomBytes
    /\ v = issued clock ip0 (runO pre startup).
Proof.
  induction evs as [| ev evs IH] using rev_ind.
  - intros H. now apply elem_of_nil in H.
  - rewrite run_snoc. intros H.
    apply handle_entries in H as [H | (ip0 & rb & -> & [= -> ->])].
    + destruct (IH H) as (pre & ip0 & rb & post & -> & Hk & Hv).
      exists pre, ip0, rb, (post ++ [ev]).
      rewrite <- app_assoc. simpl. auto.
    + exists evs, ip0, rb, []. auto.
Qed.

End StoreOrigin.

(** ** CSRF validation *)

Section RouteFacts.
Context (clock : nat -> Z).
Context (transport : nat -> MailOptions -> bool).
Context (env : ProcessEnv).

Import JsMapFacts.

Local Abbreviation postContactR := (postContact clock transport env).
Local Abbreviation runR := (run clock transport env).

(** C2, as the code has it: a request without a token (or with an empty
    one) and a request whose token is not in the store get one and the
    same answer, 403 with the message for an invalid or missing token, and
    the store is left as it is; a token that is in the store is deleted,
    and the request is answered 403 with the message for an expired token
    when the clock is past its expiry, and handed on otherwise.  That
    expiry is one hour: an issuance records 3600000 ms after its second
    clock reading, and every entry of a store reached from startup was
    recorded so by an issuance of the run.  The failing outcomes are two,
    not three. *)
Theorem validateCsrf_outcomes (req : Request) (w : World) :
  (absent_or_empty (x_csrf_token req) ->
     validateCsrf clock req w = (Respond csrfInvalid, w))
  /\ (forall tok, x_csrf_token req = Some tok ->
        JsMap.get tok (csrfTokens w) = None ->
        validateCsrf clock req w = (Respond csrfInvalid, w))
  /\ (forall tok tokenData,
        x_csrf_token req = Some tok -> tok <> [] ->
        JsMap.get tok (csrfTokens w) = Some tokenData ->
        let w' := set_csrfTokens (JsMap.delete tok) (tick w) in
        (expires tokenData < clock (ticks w) ->
           validateCsrf clock req w = (Respond csrfExpired, w'))
        /\ (clock (ticks w) <= expires tokenData ->
              validateCsrf clock req w = (Next, w'))
        /\ JsMap.has tok (csrfTokens w') = false)
  /\ csrfInvalid <> csrfExpired
  /\ status csrfInvalid = 403 /\ status csrfExpired = 403
  /\ (forall (ip0 : jsstring) (randomBytes : list N) (w0 : World),
        (forall i j, (i <= j)%nat -> clock i <= clock j) ->
        unique_keys (csrfTokens w0) ->
        let w1 := snd (getCsrfToken clock ip0 randomBytes w0) in
        let issuedAt := clock (S (ticks w0)) in
        clock (ticks w1) <= issuedAt + 3600000 ->
        exists tokenData,
          JsMap.get (toHex randomBytes) (csrfTokens w1) = Some tokenData
          /\ expires tokenData = issuedAt + 3600000)
  /\ (forall (evs : list Event) (tok : jsstring) (tokenData : TokenData),
        w = runR evs startup ->
        x_csrf_token req = Some tok -> tok <> [] ->
        JsMap.get tok (csrfTokens w) = Some tokenData ->
        exists pre ip0 randomBytes post,
          evs = pre ++ GetCsrfToken ip0 randomBytes :: post
          /\ tok = toHex randomBytes
          /\ let issuedAt := clock (S (ticks (runR pre startup))) in
             let w' := set_csrfTokens (JsMap.delete tok) (tick w) in
             expires tokenData = issuedAt + 3600000
             /\ (issuedAt + 3600000 < clock (ticks w) ->
                   validateCsrf clock req w = (Respond csrfExpired, w'))
             /\ (clock (ticks w) <= issuedAt + 3600000 ->
                   validateCsrf clock req w = (Next, w'))).
Proof.
  split; [apply validateCsrf_missing |].
  split; [intros tok; apply validateCsrf_unknown |].
  split.
  { intros tok td Htok Hne Hget w'.
    rewrite (validateCsrf_present clock req w tok td Htok Hne Hget).
    split; [| split].
    - intros H. apply Z.ltb_lt in H. now rewrite H.
    - intros H. apply Z.ltb_ge in H. now rewrite H.
    - apply has_get. simpl. apply get_delete_eq. }
  split; [discriminate |]. split; [reflexivity |]. split; [reflexivity |].
  split.
  - intros ip0 rb w0 Hmono Hu w1 issuedAt Hlive.
    exists (issued clock ip0 w0). split; [| reflexivity].
    apply (getCsrfToken_stores clock ip0 rb w0 (ticks w1)); auto.
    intros n Hn. etransitivity; [| exact Hlive]. apply Hmono. lia.
  - intros evs tok td -> Htok Hne Hget.
    destruct (run_entries clock transport env evs tok td
                (entry_of_get _ _ _ Hget))
      as (pre & ip0 & rb & post & Hevs & Hk & Hv).
    exists pre, ip0, rb, post. split; [exact Hevs |]. split; [exact Hk |].
    intros issuedAt w'.
    assert (Hexp : expires td = issuedAt + 3600000) by (now rewrite Hv).
    rewrite (validateCsrf_present clock req _ tok td Htok Hne Hget).
    split; [exact Hexp |]. rewrite Hexp. split.
    + intros H. apply Z.ltb_lt in H. now rewrite H.
    + intros H. apply Z.ltb_ge in H. now rewrite H.
Qed.

Lemma get_relabel f k (m : JsMap.t TokenData) :
  JsMap.get k
    (map (fun kv => (fst kv, {| clientId := f (fst kv) (clientId (snd kv));
                                expires := expires (snd kv) |})) m)
  = option_map (fun v => {| clientId := f k (clientId v);
                            expires := expires v |}) (JsMap.get k m).
Proof.
  induction m as [| [k' v'] m IH]; simpl; [reflexivity |].
  destruct (decide (k' = k)) as [-> | Hne]; [reflexivity | exact IH].
Qed.

Lemma delete_relabel f k (m : JsMap.t TokenData) :
  JsMap.delete k
    (map (fun kv => (fst kv, {| clientId := f (fst kv) (clientId (snd kv));
                                expires := expires (snd kv) |})) m)
  = map (fun kv => (fst kv, {| clientId := f (fst kv) (clientId (snd kv));
                               expires := expires (snd kv) |}))
      (JsMap.delete k m).
Proof.
  induction m as [| [k' v'] m IH]; simpl; [reflexivity |].
  destruct (decide (k' = k)) as [-> | Hne]; simpl; [exact IH |].
  now rewrite IH.
Qed.

(** C10: the outcome of [validateCsrf] is a function of the token
    presented, the store and the clock: two requests that present the
    same token get the same verdict and leave the same store, whatever
    their addresses and bodies, and replacing every [clientId] recorded
    in the store changes neither the verdict nor what happens to the
    store. *)
Theorem validateCsrf_ignores_client
    (tok : jsvalue) (ip1 ip2 : jsstring) (b1 b2 : ContactBody)
    (f : jsstring -> jsstring -> jsstring) (w : World) :
  let req1 := {| ip := ip1; x_csrf_token := tok; body := b1 |} in
  let req2 := {| ip := ip2; x_csrf_token := tok; body := b2 |} in
  validateCsrf clock req1 w = validateCsrf clock req2 w
  /\ validateCsrf clock req1 (relabel f w)
     = (fst (validateCsrf clock req2 w),
        relabel f (snd (validateCsrf clock req2 w))).
Proof.
  intros req1 req2. split; [reflexivity |].
  unfold validateCsrf, bind, gets, modify, ret, Date_now, JsMap.has. simpl.
  destruct (falsy tok); simpl; [reflexivity |].
  rewrite get_relabel.
  destruct (JsMap.get (String_of tok) (csrfTokens w)) as [td |]; simpl;
    [| reflexivity].
  destruct (expires td <? clock (ticks w)); simpl;
    unfold relabel, set_csrfTokens; simpl; now rewrite delete_relabel.
Qed.

End RouteFacts.

(** ** The rate limiter *)

Section LimiterFacts.
Context (clock : nat -> Z).

Lemma contactLimiter_unfold req w :
  let win := current_window (clock (ticks w)) (limiterHits w !! ip req) in
  contactLimiter clock req w
  = (if RateLimit.max <? count win + 1
     then Respond tooManyRequests else Next,
     set_limiterHits
       <[ip req := {| count := count win + 1;
                      windowStart := windowStart win |}]> (tick w)).
Proof.
  unfold contactLimiter, current_window, bind, gets, modify, ret, Date_now.
  simpl. now destruct (RateLimit.max <? _).
Qed.

Lemma contactLimiter_verdict req w :
  fst (contactLimiter clock req w) = Next
  \/ fst (contactLimiter clock req w) = Respond tooManyRequests.
Proof.
  rewrite contactLimiter_unfold. simpl.
  destruct (RateLimit.max <? _); auto.
Qed.

(** Within a window the requests of an address are admitted until the
    count has reached [max]. *)
Lemma limiterVerdicts_in_window reqs w a (c : nat) t0 :
  Forall (fun req => ip req = a) reqs ->
  limiterHits w !! a = Some {| count := Z.of_nat c; windowStart := t0 |} ->
  (forall i, (i < length reqs)%nat ->
             clock (ticks w + i) < t0 + RateLimit.windowMs) ->
  let out := limiterVerdicts clock reqs w in
  fst out = map verdict_in_window (seq c (length reqs))
  /\ limiterHits (snd out) !! a
     = Some {| count := Z.of_nat (c + length reqs); windowStart := t0 |}
  /\ ticks (snd out) = (ticks w + length reqs)%nat.
Proof.
  intros Hall. revert w c.
  induction Hall as [| req reqs Hip _ IH]; intros w c Hhit Hin; simpl.
  - rewrite !Nat.add_0_r. auto.
  - rewrite contactLimiter_unfold. rewrite Hip, Hhit. simpl.
    assert (H0 : clock (ticks w) < t0 + RateLimit.windowMs).
    { specialize (Hin 0%nat). rewrite Nat.add_0_r in Hin.
      apply Hin. simpl. lia. }
    apply Z.leb_gt in H0. rewrite H0. simpl.
    match goal with |- context [limiterVerdicts clock reqs ?w1] =>
      specialize (IH w1 (S c)); destruct (limiterVerdicts clock reqs w1)
        as [vs w2] eqn:Hrun end.
    simpl in IH. destruct IH as (Hvs & Hhits & Hticks).
    + rewrite lookup_insert_eq. f_equal. f_equal. lia.
    + intros i Hi. specialize (Hin (S i)).
      rewrite <- Nat.add_succ_r. apply Hin. simpl. lia.
    + simpl. split; [| split].
      * f_equal; [| exact Hvs]. unfold verdict_in_window, RateLimit.max.
        destruct (Nat.ltb_spec c 5); destruct (Z.ltb_spec 5 (Z.of_nat c + 1));
          auto; lia.
      * rewrite Hhits. f_equal. f_equal. lia.
      * lia.
Qed.

(** Back-to-back requests of one address, and one step of the limiter
    on the record of the requester. *)
Lemma limiterVerdicts_window (reqs : list Request) (w : World) (a : jsstring) :
  Forall (fun req => ip req = a) reqs ->
  limiterHits w !! a = None ->
  (forall i, (i < length reqs)%nat ->
             clock (ticks w + i) < clock (ticks w) + RateLimit.windowMs) ->
  fst (limiterVerdicts clock reqs w)
  = map verdict_in_window (seq 0 (length reqs))
  /\ (forall i, (5 <= i < length reqs)%nat ->
        fst (limiterVerdicts clock reqs w) !! i = Some (Respond tooManyRequests))
  /\ status tooManyRequests = 429
  /\ RateLimit.windowMs = 900000
  /\ forall (req' : Request) (w1 : World) (win : RateWindow),
       limiterHits w1 !! ip req' = Some win ->
       let now := clock (ticks w1) in
       let out := contactLimiter clock req' w1 in
       (windowStart win + RateLimit.windowMs <= now ->
          fst out = Next
          /\ limiterHits (snd out) !! ip req'
             = Some {| count := 1; windowStart := now |})
       /\ (now < windowStart win + RateLimit.windowMs ->
             limiterHits (snd out) !! ip req'
             = Some {| count := count win + 1;
                       windowStart := windowStart win |}
             /\ (fst out = Next <-> count win < RateLimit.max)).
Proof.
  intros Hall Hnone Hin.
  assert (Hvs : fst (limiterVerdicts clock reqs w)
                = map verdict_in_window (seq 0 (length reqs))).
  { destruct Hall as [| req reqs Hip Hall]; [reflexivity |].
    simpl. rewrite contactLimiter_unfold. rewrite Hip, Hnone. simpl.
    match goal with |- context [limiterVerdicts clock reqs ?w1] =>
      pose proof (limiterVerdicts_in_window reqs w1 a 1 (clock (ticks w)) Hall)
        as IH;
      destruct (limiterVerdicts clock reqs w1) as [vs w2] end.
    simpl in IH. destruct IH as (Hvs & _).
    - now rewrite lookup_insert_eq.
    - intros i Hi. specialize (Hin (S i)).
      rewrite <- Nat.add_succ_r. apply Hin. simpl. lia.
    - simpl. now rewrite Hvs. }
  split; [exact Hvs |].
  split.
  { intros i [H5 Hi]. rewrite Hvs.
    rewrite list_lookup_fmap, lookup_seq_lt by exact Hi. simpl.
    unfold verdict_in_window. now destruct (Nat.ltb_spec i 5); [lia |]. }
  split; [reflexivity |]. split; [reflexivity |].
  intros req' w1 win Hwin now out. subst out now.
  rewrite contactLimiter_unfold. rewrite Hwin. simpl. split.
  - intros H. apply Z.leb_le in H. rewrite H. simpl.
    now rewrite lookup_insert_eq.
  - intros H. apply Z.leb_gt in H. rewrite H. simpl.
    rewrite lookup_insert_eq. split; [reflexivity |].
    unfold RateLimit.max.
    destruct (Z.ltb_spec 5 (count win + 1)); split; intros; try lia;
      try discriminate; reflexivity.
Qed.

End LimiterFacts.

(** ** Order of the stages, consumption of tokens, dispatch *)

Section PipelineFacts.
Context (clock : nat -> Z).
Context (transport : nat -> MailOptions -> bool).
Context (env : ProcessEnv).

Import JsMapFacts.

Local Abbreviation postContactP := (postContact clock transport env).
Local Abbreviation runP := (run clock transport env).

Ltac not_a_stage :=
  let Hin := fresh "Hin" in
  intros Hin;
  repeat (apply elem_of_cons in Hin as [Hin | Hin]; [discriminate |]);
  now apply elem_of_nil in Hin.

Lemma fieldValidation_status b r :
  fieldValidation b = Some r -> status r = 400.
Proof.
  unfold fieldValidation. destruct (_ || _).
  - now intros [= <-].
  - destruct (negb _); [now intros [= <-] | discriminate].
Qed.

(** A request without a valid token never gets past [validateCsrf]. *)
Lemma validateCsrf_rejects req w :
  (forall tok, ~ valid_token (clock (ticks w)) req (csrfTokens w) tok) ->
  exists r w', validateCsrf clock req w = (Respond r, w')
               /\ (r = csrfInvalid \/ r = csrfExpired)
               /\ sendCalls w' = sendCalls w.
Proof.
  intros Hinv.
  destruct (x_csrf_token req) as [tok |] eqn:Htok.
  - destruct tok as [| c tok].
    + exists csrfInvalid, w. rewrite validateCsrf_missing by (now right). auto.
    + destruct (JsMap.get (c :: tok) (csrfTokens w)) as [td |] eqn:Hget.
      * rewrite (validateCsrf_present clock req w _ td Htok) by
          (auto; discriminate).
        destruct (Z.ltb_spec (expires td) (clock (ticks w))) as [Hlt | Hge].
        -- eexists _, _. split; [reflexivity |]. auto.
        -- exfalso. apply (Hinv (c :: tok)).
           split; [exact Htok |]. split; [discriminate |]. eauto.
      * exists csrfInvalid, w.
        rewrite (validateCsrf_unknown clock req w (c :: tok)) by auto. auto.
  - exists csrfInvalid, w. rewrite validateCsrf_missing by (now left). auto.
Qed.

(** C3, as the code has it: the stages of the contact route run in the
    order rate limiter, CSRF validation, handler, each one only when the
    one before has handed the request on, and no mail is sent unless the
    handler runs.  A request without a valid token never reaches the
    handler and causes no [sendMail] call: it is answered 403 by the CSRF
    validation when the rate limiter admits it, and 429 by the rate
    limiter, before any CSRF validation, when it does not. *)
Theorem contact_route_order (req : Request) (w : World) :
  let out := postContactP req w in
  (stages_run out = [ContactLimiter]
   \/ stages_run out = [ContactLimiter; ValidateCsrf]
   \/ stages_run out = [ContactLimiter; ValidateCsrf; ContactHandler])
  /\ ((ContactHandler ∉ stages_run out) ->
        sendCalls (world_after out) = sendCalls w)
  /\ ((forall tok,
         ~ valid_token (clock (S (ticks w))) req (csrfTokens w) tok) ->
      (ContactHandler ∉ stages_run out)
      /\ sendCalls (world_after out) = sendCalls w
      /\ (fst (contactLimiter clock req w) = Next ->
            stages_run out = [ContactLimiter; ValidateCsrf]
            /\ exists r, response out = Some r /\ status r = 403
                         /\ (r = csrfInvalid \/ r = csrfExpired))
      /\ (fst (contactLimiter clock req w) <> Next ->
            stages_run out = [ContactLimiter]
            /\ response out = Some tooManyRequests
            /\ status tooManyRequests = 429)).
Proof.
  intros out. subst out. rewrite postContact_unfold.
  pose proof (contactLimiter_frame clock req w) as (Hc1 & _ & Hs1 & Ht1).
  pose proof (contactLimiter_verdict clock req w) as Hv1.
  destruct (contactLimiter clock req w) as [v1 w1]; simpl in *.
  destruct Hv1 as [-> | ->].
  - pose proof (validateCsrf_frame clock req w1) as (_ & _ & Hs2 & _ & _).
    split; [| split].
    + destruct (validateCsrf clock req w1) as [[| r2] w2]; simpl; auto.
      destruct (contactHandler transport env req w2); simpl; auto.
    + destruct (validateCsrf clock req w1) as [[| r2] w2]; simpl in *.
      * destruct (contactHandler transport env req w2); simpl.
        intros Hnot. exfalso. apply Hnot.
        unfold stages_run. simpl. rewrite !elem_of_cons. auto.
      * intros _. congruence.
    + intros Hinv.
      destruct (validateCsrf_rejects req w1) as (r & w2 & -> & Hr & Hs).
      { now rewrite Hc1, Ht1. }
      unfold stages_run, response, world_after. simpl.
      split; [not_a_stage |]. split; [congruence |].
      split; [| intros H; congruence].
      intros _. split; [reflexivity |]. exists r.
      split; [reflexivity |]. split; [| exact Hr].
      now destruct Hr as [-> | ->].
  - unfold stages_run, response, world_after. simpl.
    split; [auto |]. split; [auto |]. intros _.
    split; [not_a_stage |]. split; [exact Hs1 |].
    split; [discriminate |]. auto.
Qed.

(** C9, as the code has it: when the rate limiter admits a request whose
    token is in the store and not expired, [validateCsrf] deletes the
    token before the handler runs, and the token stays deleted whatever
    the handler answers (503 without mail configuration, 400 on a field
    error, 500 on a failed send, 200 otherwise); afterwards nothing but
    an issuance that draws the very same string puts it back.  When the
    rate limiter rejects such a request it is answered 429, no other
    stage runs, and the store, with the token in it, is as before. *)
Theorem admitted_request_consumes_token
    (req : Request) (w : World) (tok : jsstring) :
  valid_token (clock (S (ticks w))) req (csrfTokens w) tok ->
  let w1 := snd (contactLimiter clock req w) in
  let w2 := snd (validateCsrf clock req w1) in
  let out := postContactP req w in
  (fst (contactLimiter clock req w) = Next ->
     fst (validateCsrf clock req w1) = Next
     /\ JsMap.has tok (csrfTokens w2) = false
     /\ stages_run out = [ContactLimiter; ValidateCsrf; ContactHandler]
     /\ response out = Some (fst (contactHandler transport env req w2))
     /\ world_after out = snd (contactHandler transport env req w2)
     /\ JsMap.has tok (csrfTokens (world_after out)) = false
     /\ (emailConfigValid w = false -> response out = Some emailUnavailable)
     /\ (emailConfigValid w = true ->
           forall r, fieldValidation (body req) = Some r ->
                     response out = Some r /\ status r = 400)
     /\ (emailConfigValid w = true -> fieldValidation (body req) = None ->
           response out = Some dispatchFailure
           \/ response out = Some messageSent)
     /\ forall later : list Event,
          Forall (fun ev => issues tok ev = false) later ->
          JsMap.has tok (csrfTokens (runP later (world_after out))) = false)
  /\ (fst (contactLimiter clock req w) <> Next ->
      stages_run out = [ContactLimiter]
      /\ response out = Some tooManyRequests
      /\ status tooManyRequests = 429
      /\ csrfTokens (world_after out) = csrfTokens w
      /\ JsMap.has tok (csrfTokens (world_after out)) = true).
Proof.
  intros (Htok & Hne & td & Hget & Hexp) w1 w2 out. split; [| clear w2].
  2: {
    intros Hrej. subst out w1. rewrite postContact_unfold.
    pose proof (contactLimiter_frame clock req w) as (Hc1 & _).
    pose proof (contactLimiter_verdict clock req w) as Hv1.
    destruct (contactLimiter clock req w) as [v1 w1].
    cbn [fst snd] in *. destruct Hv1 as [-> | ->]; [congruence |].
    unfold stages_run, response, world_after. cbn [fst snd].
    repeat (split; [reflexivity |]). split; [exact Hc1 |].
    unfold JsMap.has. now rewrite Hc1, Hget. }
  intros Hadmit.
  subst out w2 w1. rewrite postContact_unfold.
  pose proof (contactLimiter_frame clock req w) as (Hc1 & He1 & _ & Ht1).
  destruct (contactLimiter clock req w) as [v1 w1].
  cbn [fst snd] in *. subst v1.
  rewrite <- Hc1 in Hget. rewrite <- Ht1 in Hexp.
  rewrite (validateCsrf_present clock req w1 tok td Htok Hne Hget).
  apply Z.ltb_ge in Hexp. rewrite Hexp. cbn [fst snd].
  set (w2 := set_csrfTokens (JsMap.delete tok) (tick w1)).
  assert (Hgone : JsMap.has tok (csrfTokens w2) = false).
  { apply has_get. subst w2. simpl. apply get_delete_eq. }
  assert (He2 : emailConfigValid w2 = emailConfigValid w)
    by (subst w2; simpl; exact He1).
  pose proof (contactHandler_frame transport env req w2) as (Hc3 & _ & _ & _).
  pose proof (contactHandler_unfold transport env req w2) as Hh.
  destruct (contactHandler transport env req w2) as [r3 w3].
  unfold stages_run, response, world_after. cbn [fst snd] in *.
  assert (Hgone3 : JsMap.has tok (csrfTokens w3) = false)
    by (now rewrite Hc3).
  split; [reflexivity |]. split; [exact Hgone |].
  split; [reflexivity |]. split; [reflexivity |]. split; [reflexivity |].
  split; [exact Hgone3 |].
  split; [| split; [| split]].
  - intros Hcfg. rewrite He2, Hcfg in Hh. simpl in Hh. congruence.
  - intros Hcfg r Hr. rewrite He2, Hcfg, Hr in Hh. simpl in Hh.
    split; [congruence | now apply (fieldValidation_status (body req))].
  - intros Hcfg Hr. rewrite He2, Hcfg, Hr in Hh. simpl in Hh.
    repeat destruct (transport _ _); injection Hh as -> _; auto.
  - intros later Hlater. apply has_get. apply run_absent; [exact Hlater |].
    now apply has_get.
Qed.

(** C7, as the code has it: for a submission that passes validation the
    handler sends the notification to the business first and, only when
    that send has succeeded, the auto-reply to the address as submitted,
    not to the sanitized address.  When both sends succeed the answer is
    200; when either fails the answer is the same 500 body, nothing is
    sent again, and a failure of the first send leaves the second
    unattempted: one [sendMail] call then, two otherwise. *)
Theorem dispatch_outcomes (req : Request) (w : World) :
  emailConfigValid w = true ->
  fieldValidation (body req) = None ->
  let d := sanitize (body req) in
  let m1 := companyMailOptions env d in
  let m2 := customerMailOptions env (body req) d in
  let k := length (sendCalls w) in
  let result := contactHandler transport env req w in
  to m1 = COMPANY_EMAIL env /\ to m2 = email (body req)
  /\ html m1 = (CompanyNotification, d) /\ html m2 = (CustomerAutoReply, d)
  /\ (transport k m1 = true -> transport (S k) m2 = true ->
        fst result = messageSent
        /\ sendCalls (snd result) = sendCalls w ++ [(m1, true); (m2, true)])
  /\ (transport k m1 = true -> transport (S k) m2 = false ->
        fst result = dispatchFailure
        /\ sendCalls (snd result) = sendCalls w ++ [(m1, true); (m2, false)])
  /\ (transport k m1 = false ->
        fst result = dispatchFailure
        /\ sendCalls (snd result) = sendCalls w ++ [(m1, false)])
  /\ status dispatchFailure = 500
  /\ (exists msg, json dispatchFailure = JResult false msg).
Proof.
  intros Hcfg Hval d m1 m2 k result. subst result.
  rewrite contactHandler_unfold, Hcfg, Hval. simpl.
  fold d. fold m1. fold m2. fold k.
  repeat (split; [reflexivity |]).
  split; [| split; [| split; [| split]]].
  - intros -> ->. simpl. now rewrite <- app_assoc.
  - intros -> ->. simpl. now rewrite <- app_assoc.
  - intros ->. simpl. auto.
  - reflexivity.
  - eexists. reflexivity.
Qed.

End PipelineFacts.

(** ** The properties at sample inputs *)

Lemma sanitizeHtml_is_single_pass_witness :
  Sanitizer.sanitizeHtml (Some (lit "<a href='/'>R&D</a>"))
  = Sanitizer.escape_single_pass (lit "<a href='/'>R&D</a>")
  /\ Sanitizer.escape_char 97%N = [97%N].
Proof.
  pose proof SanitizerFacts.sanitizeHtml_is_single_pass
    as (Hpass & _ & _ & _ & _ & _ & _ & _ & Hplain).
  split; [apply Hpass | apply Hplain; discriminate].
Defined.

Lemma validateCsrf_outcomes_witness :
  let issuedW :=
    snd (getCsrfToken Sample.clock Sample.address Sample.randomBytes startup) in
  validateCsrf Sample.clock Sample.without_token issuedW
  = (Respond csrfInvalid, issuedW)
  /\ validateCsrf Sample.clock Sample.unknown_token issuedW
     = (Respond csrfInvalid, issuedW)
  /\ validateCsrf Sample.clock Sample.with_token issuedW
     = (Next, set_csrfTokens (JsMap.delete Sample.token) (tick issuedW))
  /\ validateCsrf Sample.slow_clock Sample.with_token
       (tick (tick
          (snd (getCsrfToken Sample.slow_clock Sample.address
                  Sample.randomBytes startup))))
     = (Respond csrfExpired,
        set_csrfTokens (JsMap.delete Sample.token)
          (tick (tick (tick
             (snd (getCsrfToken Sample.slow_clock Sample.address
                     Sample.randomBytes startup))))))
  /\ (exists tokenData,
        JsMap.get Sample.token (csrfTokens issuedW) = Some tokenData
        /\ expires tokenData = Sample.clock 1 + 3600000)
  /\ (exists pre ip0 randomBytes post,
        [GetCsrfToken Sample.address Sample.randomBytes]
        = pre ++ GetCsrfToken ip0 randomBytes :: post
        /\ Sample.token = toHex randomBytes
        /\ expires (issued Sample.clock Sample.address startup)
           = Sample.clock
               (S (ticks (run Sample.clock Sample.reachable Sample.env pre
                            startup)))
             + 3600000).
Proof.
  intros issuedW.
  split; [| split; [| split; [| split; [| split]]]].
  - apply (proj1 (validateCsrf_outcomes Sample.clock Sample.reachable
                    Sample.env Sample.without_token issuedW)).
    now left.
  - apply (proj1 (proj2 (validateCsrf_outcomes Sample.clock Sample.reachable
                           Sample.env Sample.unknown_token issuedW))
             (lit "0123abcd")); reflexivity.
  - refine (proj1 (proj2 (proj1 (proj2 (proj2
              (validateCsrf_outcomes Sample.clock Sample.reachable Sample.env
                 Sample.with_token issuedW)))
              Sample.token _ eq_refl _ _)) _).
    + discriminate.
    + vm_compute. reflexivity.
    + vm_compute. discriminate.
  - refine (proj1 (proj1 (proj2 (proj2
              (validateCsrf_outcomes Sample.slow_clock Sample.reachable
                 Sample.env Sample.with_token _)))
              Sample.token _ eq_refl _ _) _).
    + discriminate.
    + vm_compute. reflexivity.
    + vm_compute. reflexivity.
  - apply (proj1 (proj2 (proj2 (proj2 (proj2 (proj2 (proj2
             (validateCsrf_outcomes Sample.clock Sample.reachable Sample.env
                Sample.with_token issuedW)))))))
             Sample.address Sample.randomBytes startup).
    + intros i j Hij. unfold Sample.clock. lia.
    + constructor.
    + vm_compute. discriminate.
  - destruct (proj2 (proj2 (proj2 (proj2 (proj2 (proj2 (proj2
                (validateCsrf_outcomes Sample.clock Sample.reachable Sample.env
                   Sample.with_token issuedW)))))))
                [GetCsrfToken Sample.address Sample.randomBytes]
                Sample.token (issued Sample.clock Sample.address startup))
      as (pre & ip0 & rb & post & Hevs & Hk & Hexp & _).
    + reflexivity.
    + reflexivity.
    + discriminate.
    + vm_compute. reflexivity.
    + exists pre, ip0, rb, post. auto.
Defined.

(** C2, against the specification as worded: a request without a token and a
    request with a token that the store does not know are answered
    alike, so the missing and the unknown token are not distinct
    outcomes. *)
Lemma csrf_missing_and_unknown_alike :
  x_csrf_token Sample.without_token = None
  /\ x_csrf_token Sample.unknown_token = Some (lit "0123abcd")
  /\ JsMap.has (lit "0123abcd") (csrfTokens startup) = false
  /\ validateCsrf Sample.clock Sample.without_token startup
     = (Respond csrfInvalid, startup)
  /\ validateCsrf Sample.clock Sample.unknown_token startup
     = (Respond csrfInvalid, startup)
  /\ ~ (fst (validateCsrf Sample.clock Sample.without_token startup)
        <> fst (validateCsrf Sample.clock Sample.unknown_token startup)).
Proof. repeat split. intros H. now apply H. Qed.

Lemma contact_route_order_witness :
  let out :=
    postContact Sample.clock Sample.reachable Sample.env
      Sample.without_token Sample.ready in
  stages_run out = [ContactLimiter; ValidateCsrf]
  /\ sendCalls (world_after out) = []
  /\ exists r, response out = Some r /\ status r = 403
               /\ (r = csrfInvalid \/ r = csrfExpired).
Proof.
  intros out.
  pose proof (contact_route_order Sample.clock Sample.reachable Sample.env
                Sample.without_token Sample.ready) as (_ & _ & H).
  destruct H as (_ & Hsend & Hadmit & _).
  - intros tok (Htok & _). discriminate Htok.
  - destruct (Hadmit eq_refl) as (Hst & Hr). auto.
Defined.

(** C3, against the specification as worded: the sixth request of an address
    within the window carries no token and is answered 429 by the rate
    limiter, not 403; CSRF validation does not run. *)
Lemma rate_limited_request_gets_429 :
  let w :=
    run Sample.clock Sample.reachable Sample.env
      (replicate 5 (PostContact Sample.without_token)) Sample.ready in
  let out :=
    postContact Sample.clock Sample.reachable Sample.env
      Sample.without_token w in
  x_csrf_token Sample.without_token = None
  /\ stages_run out = [ContactLimiter]
  /\ response out = Some tooManyRequests
  /\ status tooManyRequests = 429
  /\ ~ (exists r, response out = Some r /\ status r = 403).
Proof.
  vm_compute. repeat split. intros (r & [= <-] & H). discriminate H.
Qed.

Lemma dispatch_outcomes_witness :
  let result :=
    contactHandler Sample.second_fails Sample.env Sample.with_token
      Sample.ready in
  let d := sanitize Sample.submission in
  fst result = dispatchFailure
  /\ sendCalls (snd result)
     = [(companyMailOptions Sample.env d, true);
        (customerMailOptions Sample.env Sample.submission d, false)].
Proof.
  intros result d.
  pose proof (dispatch_outcomes Sample.second_fails Sample.env
                Sample.with_token Sample.ready eq_refl eq_refl)
    as (_ & _ & _ & _ & _ & H & _).
  exact (H eq_refl eq_refl).
Defined.

(** C7, against the specification as worded: with a transport that fails the
    first send, a valid submission causes one [sendMail] call, not two;
    the auto-reply is never attempted. *)
Lemma failed_first_send_is_the_only_send :
  let result :=
    contactHandler Sample.unreachable Sample.env Sample.with_token
      Sample.ready in
  emailConfigValid Sample.ready = true
  /\ fieldValidation (body Sample.with_token) = None
  /\ fst result = dispatchFailure
  /\ sendCalls (snd result)
     = [(companyMailOptions Sample.env (sanitize Sample.submission), false)]
  /\ length (sendCalls (snd result)) <> 2%nat.
Proof. vm_compute. repeat split. discriminate. Qed.

Lemma admitted_request_consumes_token_witness :
  let w :=
    run Sample.clock Sample.unreachable Sample.env
      [GetCsrfToken Sample.address Sample.randomBytes] Sample.ready in
  let out :=
    postContact Sample.clock Sample.unreachable Sample.env
      Sample.with_token w in
  JsMap.has Sample.token (csrfTokens w) = true
  /\ JsMap.has Sample.token (csrfTokens (world_after out)) = false
  /\ response out = Some dispatchFailure
  /\ let busy :=
       run Sample.clock Sample.reachable Sample.env
         (GetCsrfToken Sample.address Sample.randomBytes
          :: replicate 5 (PostContact Sample.without_token)) Sample.ready in
     let late :=
       postContact Sample.clock Sample.reachable Sample.env
         Sample.with_token busy in
     response late = Some tooManyRequests
     /\ JsMap.has Sample.token (csrfTokens (world_after late)) = true.
Proof.
  intros w out.
  assert (Hvalid : valid_token (Sample.clock (S (ticks w))) Sample.with_token
                     (csrfTokens w) Sample.token).
  { split; [reflexivity |]. split; [discriminate |].
    eexists. split; [vm_compute; reflexivity | vm_compute; discriminate]. }
  pose proof (proj1 (admitted_request_consumes_token Sample.clock
                       Sample.unreachable Sample.env Sample.with_token w
                       Sample.token Hvalid) eq_refl)
    as (_ & _ & _ & _ & _ & Hgone & _).
  split; [reflexivity |]. split; [exact Hgone |]. split; [reflexivity |].
  intros busy.
  assert (Hbusy : valid_token (Sample.clock (S (ticks busy)))
                    Sample.with_token (csrfTokens busy) Sample.token).
  { split; [reflexivity |]. split; [discriminate |].
    eexists. split; [vm_compute; reflexivity | vm_compute; discriminate]. }
  pose proof (proj2 (admitted_request_consumes_token Sample.clock
                       Sample.reachable Sample.env Sample.with_token busy
                       Sample.token Hbusy)) as Hkept.
  destruct Hkept as (_ & Hresp & _ & _ & Hhas).
  - vm_compute. discriminate.
  - split; [exact Hresp | exact Hhas].
Defined.

(** C9, against the specification as worded: a request that carries a valid,
    unexpired token but is the sixth of its address within the window is
    rejected by the rate limiter before CSRF validation, and its token is
    still in the store afterwards. *)
Lemma rate_limited_request_keeps_token :
  let w :=
    run Sample.clock Sample.reachable Sample.env
      (GetCsrfToken Sample.address Sample.randomBytes
       :: replicate 5 (PostContact Sample.without_token)) Sample.ready in
  let out :=
    postContact Sample.clock Sample.reachable Sample.env Sample.with_token w in
  valid_token (Sample.clock (S (ticks w))) Sample.with_token (csrfTokens w)
    Sample.token
  /\ response out = Some tooManyRequests
  /\ JsMap.has Sample.token (csrfTokens (world_after out)) = true.
Proof.
  intros w out. split; [| split; reflexivity].
  split; [reflexivity |]. split; [discriminate |].
  eexists. split; [vm_compute; reflexivity | vm_compute; discriminate].
Qed.

(** * Further properties of the code *)

(** ** What the sanitizer guarantees *)

Module SanitizerSafety.
Import Sanitizer.

Lemma escape_char_markup_free c : markup_free (escape_char c).
Proof.
  unfold escape_char, markup_free.
  destruct (N.eqb_spec c AMP); [repeat constructor |].
  destruct (N.eqb_spec c LT); [repeat constructor |].
  destruct (N.eqb_spec c GT); [repeat constructor |].
  destruct (N.eqb_spec c QUOT); [repeat constructor |].
  destruct (N.eqb_spec c APOS); [repeat constructor |].
  destruct (N.eqb_spec c SLASH); [repeat constructor |].
  constructor; [| constructor]. unfold markup.
  repeat (apply orb_false_intro); now apply N.eqb_neq.
Qed.

Lemma escape_markup_free s : markup_free (escape_single_pass s).
Proof.
  induction s as [| c s IH]; [constructor |].
  unfold escape_single_pass, markup_free in *. simpl.
  apply Forall_app. split; [apply escape_char_markup_free | exact IH].
Qed.

Lemma sanitizeHtml_clean (str : jsvalue) : markup_free (sanitizeHtml str).
Proof.
  destruct str as [s |]; [| constructor].
  rewrite SanitizerFacts.sanitizeHtml_single_pass. apply escape_markup_free.
Qed.

(** X1: whatever it is given, [sanitizeHtml] returns a string without
    less-than, greater-than, double quote, apostrophe or slash. *)
Theorem sanitizeHtml_markup_free (str : jsvalue) :
  markup_free (sanitizeHtml str).
Proof.
  destruct str as [s |]; [| constructor].
  rewrite SanitizerFacts.sanitizeHtml_single_pass.
  induction s as [| c s IH]; [constructor |].
  unfold escape_single_pass, markup_free in *. simpl.
  apply Forall_app. split; [apply escape_char_markup_free | exact IH].
Qed.

Lemma escape_char_prefix_free c1 c2 r1 r2 :
  escape_char c1 ++ r1 = escape_char c2 ++ r2 -> c1 = c2 /\ r1 = r2.
Proof.
  unfold escape_char, AMP, LT, GT, QUOT, APOS, SLASH.
  repeat match goal with
         | |- context [lit ?s] =>
             let v := eval vm_compute in (lit s) in change (lit s) with v
         end.
  repeat match goal with
         | |- context [N.eqb ?x ?y] => destruct (N.eqb_spec x y)
         end;
    subst; cbn [app]; intros H; try discriminate H;
    injection H as H; subst; try congruence; auto.
Qed.

Lemma escape_single_pass_injective s1 s2 :
  escape_single_pass s1 = escape_single_pass s2 -> s1 = s2.
Proof.
  revert s2. induction s1 as [| c1 s1 IH]; intros [| c2 s2] H.
  - reflexivity.
  - exfalso. pose proof (SanitizerFacts.escape_char_length c2) as Hl.
    apply (f_equal length) in H. unfold escape_single_pass in H.
    simpl in H. rewrite length_app in H. lia.
  - exfalso. pose proof (SanitizerFacts.escape_char_length c1) as Hl.
    apply (f_equal length) in H. unfold escape_single_pass in H.
    simpl in H. rewrite length_app in H. lia.
  - unfold escape_single_pass in H. simpl in H.
    apply escape_char_prefix_free in H as [-> H]. f_equal. now apply IH.
Qed.

(** X2: [sanitizeHtml] loses nothing: two strings with the same
    sanitized form are the same string. *)
Theorem sanitizeHtml_injective (s1 s2 : jsstring) :
  sanitizeHtml (Some s1) = sanitizeHtml (Some s2) -> s1 = s2.
Proof.
  rewrite !SanitizerFacts.sanitizeHtml_single_pass.
  apply escape_single_pass_injective.
Qed.

Lemma sanitizeHtml_injective_witness :
  lit "R&D" = lit "R&D".
Proof.
  apply (sanitizeHtml_injective (lit "R&D") (lit "R&D")). reflexivity.
Defined.

(** X3: sanitizing a concatenation is concatenating the sanitized
    parts, so a text can be sanitized piece by piece. *)
Theorem sanitizeHtml_app (s1 s2 : jsstring) :
  sanitizeHtml (Some (s1 ++ s2))
  = sanitizeHtml (Some s1) ++ sanitizeHtml (Some s2).
Proof.
  rewrite !SanitizerFacts.sanitizeHtml_single_pass.
  unfold escape_single_pass. apply flat_map_app.
Qed.

Lemma escape_char_length_le c : (length (escape_char c) <= 6)%nat.
Proof.
  unfold escape_char.
  repeat (destruct (N.eqb _ _); [simpl; lia |]). simpl; lia.
Qed.

(** X4: the sanitized string is at least as long as the input and at
    most six times as long. *)
Theorem sanitizeHtml_length (s : jsstring) :
  (length s <= length (sanitizeHtml (Some s)) <= 6 * length s)%nat.
Proof.
  rewrite SanitizerFacts.sanitizeHtml_single_pass.
  split; [apply SanitizerFacts.escape_length |].
  induction s as [| c s IH]; [simpl; lia |].
  unfold escape_single_pass in *. simpl. rewrite length_app.
  pose proof (escape_char_length_le c). lia.
Qed.

End SanitizerSafety.

(** ** What an accepted address looks like *)

Module EmailShape.
Import Regex.

Lemma class_no_at u :
  Forall (fun c => not_space_at c = true) u -> count_occ N.eq_dec u AT = 0%nat.
Proof.
  induction 1 as [| c u Hc _ IH]; [reflexivity |].
  simpl. destruct (N.eq_dec c AT) as [-> | _]; [discriminate Hc | exact IH].
Qed.

Lemma class_no_space u :
  Forall (fun c => not_space_at c = true) u ->
  Forall (fun c => is_space c = false) u.
Proof.
  intros H. eapply Forall_impl; [exact H |].
  intros c Hc. unfold not_space_at in Hc.
  apply negb_true_iff, orb_false_elim in Hc. tauto.
Qed.

(** X5: an address that [emailRegex] accepts has exactly one at-sign, no
    white space (so no carriage return or line feed), and at least five
    characters. *)
Theorem emailRegex_accepts_only (s : jsstring) :
  test emailRegex s = true ->
  count_occ N.eq_dec s AT = 1%nat
  /\ Forall (fun c => is_space c = false) s
  /\ (5 <= length s)%nat.
Proof.
  intros H. apply RegexFacts.emailRegex_shape in H
    as (u & v & w & -> & Hu & Hv & Hw & Fu & Fv & Fw).
  split; [| split].
  - rewrite count_occ_app. simpl. rewrite count_occ_app. simpl.
    rewrite !class_no_at by assumption. reflexivity.
  - apply Forall_app. split; [now apply class_no_space |].
    constructor; [reflexivity |].
    apply Forall_app. split; [now apply class_no_space |].
    constructor; [reflexivity | now apply class_no_space].
  - rewrite length_app. simpl. rewrite length_app. simpl.
    destruct u; [congruence |]. destruct v; [congruence |].
    destruct w; [congruence |]. simpl. lia.
Qed.

Lemma emailRegex_accepts_only_witness :
  count_occ N.eq_dec (lit "a@b.co") AT = 1%nat
  /\ Forall (fun c => is_space c = false) (lit "a@b.co")
  /\ (5 <= length (lit "a@b.co"))%nat.
Proof. apply (emailRegex_accepts_only (lit "a@b.co")). reflexivity. Defined.

End EmailShape.

(** ** The token store over time *)

Section TokenStoreFacts.
Context (clock : nat -> Z).
Context (transport : nat -> MailOptions -> bool).
Context (env : ProcessEnv).

Import JsMapFacts.

Local Abbreviation postContactT := (postContact clock transport env).
Local Abbreviation runT := (run clock transport env).
Local Abbreviation handleT := (handle clock transport env).

Lemma elem_of_delete {V} (e : jsstring * V) k (m : JsMap.t V) :
  e ∈ JsMap.delete k m -> e ∈ m /\ fst e <> k.
Proof.
  induction m as [| [k0 v0] m IH]; simpl.
  - intros H. now apply elem_of_nil in H.
  - destruct (decide (k0 = k)) as [-> | Hne].
    + intros H. apply IH in H as [H1 H2]. split; [| exact H2].
      apply elem_of_cons. now right.
    + rewrite !elem_of_cons. intros [-> | H]; [split; auto |].
      apply IH in H as [H1 H2]. auto.
Qed.

(** What the sweep leaves was not expired at the readings it took, and
    so not at any time before them. *)
Lemma sweep_unexpired entries w lower :
  (forall n, (ticks w <= n)%nat -> lower <= clock n) ->
  (forall e, e ∈ csrfTokens w -> e ∈ entries \/ lower <= expires (snd e)) ->
  forall e, e ∈ csrfTokens (snd (sweep clock entries w)) ->
            lower <= expires (snd e).
Proof.
  revert w. induction entries as [| [key value] rest IH];
    intros w Hclk Hin e; simpl.
  - intros He. destruct (Hin e He) as [H | H]; [| exact H].
    now apply elem_of_nil in H.
  - unfold bind, Date_now. simpl.
    destruct (expires value <? clock (ticks w)) eqn:Hexp; simpl;
      unfold modify, ret; simpl; apply IH; simpl.
    + intros n Hn. apply Hclk. lia.
    + intros e' He'. apply elem_of_delete in He' as [He' Hk].
      destruct (Hin e' He') as [H | H]; [| now right].
      apply elem_of_cons in H as [-> | H]; [now simpl in Hk | now left].
    + intros n Hn. apply Hclk. lia.
    + intros e' He'. destruct (Hin e' He') as [H | H]; [| now right].
      apply elem_of_cons in H as [-> | H]; [| now left].
      right. simpl. apply Z.ltb_ge in Hexp.
      specialize (Hclk (ticks w)). lia.
Qed.

(** X6: when an issuance returns, the store holds no entry that had
    already expired when its sweep began: under a clock that does not go
    back, every entry left expires at or after the first reading of the
    sweep. *)
Theorem issuance_sweeps_expired
    (ip0 : jsstring) (randomBytes : list N) (w : World)
    (k : jsstring) (v : TokenData) :
  (forall i j, (i <= j)%nat -> clock i <= clock j) ->
  (k, v) ∈ csrfTokens (snd (getCsrfToken clock ip0 randomBytes w)) ->
  clock (S (S (ticks w))) <= expires v.
Proof.
  intros Hmono. rewrite getCsrfToken_unfold. simpl. intros Hin.
  refine (sweep_unexpired _ _ (clock (S (S (ticks w)))) _ _ (k, v) Hin).
  - intros n Hn. apply Hmono. exact Hn.
  - intros e He. now left.
Qed.

(** X7: an issuance leaves the live tokens of everybody else as they
    are: an entry under another key that is not expired when the handler
    ends is still in the store, unchanged. *)
Theorem issuance_keeps_live
    (ip0 : jsstring) (randomBytes : list N) (w : World)
    (k : jsstring) (v : TokenData) :
  (forall i j, (i <= j)%nat -> clock i <= clock j) ->
  unique_keys (csrfTokens w) ->
  toHex randomBytes <> k ->
  JsMap.get k (csrfTokens w) = Some v ->
  let w' := snd (getCsrfToken clock ip0 randomBytes w) in
  clock (ticks w') <= expires v ->
  JsMap.get k (csrfTokens w') = Some v.
Proof.
  intros Hmono Hu Hne Hget w' Hlive.
  apply (getCsrfToken_keeps clock ip0 randomBytes w k v (ticks w')); auto.
  intros n Hn. etransitivity; [| exact Hlive]. apply Hmono. lia.
Qed.

(** X8: [validateCsrf] touches nothing but the entry of the token it is
    shown: every other entry of the store, the mail configuration flag,
    the rate limiter's table and the log of sends are as before. *)
Theorem validateCsrf_touches_only_presented
    (req : Request) (w : World) (k : jsstring) :
  x_csrf_token req <> Some k ->
  let w' := snd (validateCsrf clock req w) in
  JsMap.get k (csrfTokens w') = JsMap.get k (csrfTokens w)
  /\ emailConfigValid w' = emailConfigValid w
  /\ limiterHits w' = limiterHits w
  /\ sendCalls w' = sendCalls w.
Proof.
  intros Hne w'.
  destruct (validateCsrf_frame clock req w) as (He & Hl & Hs & _ & Hc).
  fold w' in He, Hl, Hs, Hc. repeat split; auto.
  destruct Hc as [-> | (tok & Htok & ->)]; [reflexivity |].
  apply get_delete_ne. congruence.
Qed.

Lemma handle_present_from k ev w :
  JsMap.get k (csrfTokens (snd (handleT ev w))) <> None ->
  JsMap.get k (csrfTokens w) <> None \/ issues k ev = true.
Proof.
  intros H. destruct (issues k ev) eqn:Hi; [now right |].
  left. intros Hnone. apply H. now apply handle_absent.
Qed.

Lemma run_present_from k evs w :
  JsMap.get k (csrfTokens (runT evs w)) <> None ->
  JsMap.get k (csrfTokens w) <> None \/ issued_by k evs.
Proof.
  revert w. induction evs as [| ev evs IH]; intros w H; [now left |].
  rewrite run_cons in H. apply IH in H as [H | (ip0 & rb & Hin & Heq)].
  - apply handle_present_from in H as [H | H]; [now left |].
    right. destruct ev as [ip0 rb | | |]; try discriminate H.
    simpl in H. apply bool_decide_eq_true in H.
    exists ip0, rb. split; [apply elem_of_cons; now left | exact H].
  - right. exists ip0, rb. split; [apply elem_of_cons; now right | exact Heq].
Qed.

Lemma validateCsrf_Next_present req w :
  fst (validateCsrf clock req w) = Next ->
  exists tok, x_csrf_token req = Some tok /\ tok <> []
              /\ JsMap.get tok (csrfTokens w) <> None.
Proof.
  intros H. destruct (x_csrf_token req) as [tok |] eqn:Htok.
  - destruct tok as [| c tok].
    + rewrite validateCsrf_missing in H by (now right). discriminate H.
    + destruct (JsMap.get (c :: tok) (csrfTokens w)) eqn:Hget.
      * exists (c :: tok). rewrite Hget. repeat split; discriminate.
      * rewrite (validateCsrf_unknown clock req w (c :: tok)) in H by auto.
        discriminate H.
  - rewrite validateCsrf_missing in H by (now left). discriminate H.
Qed.

(** X9: the server accepts no token that it has not issued: after any
    sequence of events from startup, a request passes [validateCsrf] only
    with a token that an earlier call of the issuance endpoint returned. *)
Theorem only_issued_tokens_pass (evs : list Event) (req : Request) :
  fst (validateCsrf clock req (runT evs startup)) = Next ->
  exists tok, x_csrf_token req = Some tok /\ issued_by tok evs.
Proof.
  intros H. apply validateCsrf_Next_present in H as (tok & Htok & _ & Hget).
  exists tok. split; [exact Htok |].
  apply run_present_from in Hget as [H | H]; [| exact H].
  now simpl in H.
Qed.

(** X10: a submission that has reached the contact handler cannot be
    replayed: the same request sent again, after any further events short
    of an issuance drawing the same token, is answered 403 or 429, never
    reaches the handler and causes no send. *)
Theorem processed_submission_not_replayable
    (req : Request) (w : World) (tok : jsstring) (later : list Event) :
  x_csrf_token req = Some tok ->
  ContactHandler ∈ stages_run (postContactT req w) ->
  Forall (fun ev => issues tok ev = false) later ->
  let w' := runT later (world_after (postContactT req w)) in
  let again := postContactT req w' in
  (response again = Some csrfInvalid \/ response again = Some tooManyRequests)
  /\ (ContactHandler ∉ stages_run again)
  /\ sendCalls (world_after again) = sendCalls w'.
Proof.
  intros Htok Hran Hlater.
  assert (Hgone : JsMap.get tok
                    (csrfTokens (world_after (postContactT req w))) = None).
  { revert Hran. rewrite postContact_unfold.
    pose proof (contactLimiter_frame clock req w) as (Hc1 & _).
    destruct (contactLimiter clock req w) as [[| r1] w1];
      unfold stages_run, world_after; cbn [fst snd] in *.
    - destruct (validateCsrf clock req w1) as [[| r2] w2] eqn:Hv.
      + intros _.
        destruct (validateCsrf_Next_present req w1) as (t & Ht & Hne & Hp).
        { now rewrite Hv. }
        assert (t = tok) as -> by congruence.
        destruct (JsMap.get tok (csrfTokens w1)) as [td |] eqn:Hget;
          [| congruence].
        rewrite (validateCsrf_present clock req w1 tok td Htok Hne Hget) in Hv.
        injection Hv as _ <-.
        pose proof (contactHandler_frame transport env req
                      (set_csrfTokens (JsMap.delete tok) (tick w1)))
          as (Hc3 & _).
        destruct (contactHandler transport env req _) as [r3 w3].
        cbn [fst snd] in *. rewrite Hc3. simpl. apply get_delete_eq.
      + cbn [fst snd]. rewrite !elem_of_cons.
        intros [H | [H | H]]; try discriminate H. now apply elem_of_nil in H.
    - rewrite !elem_of_cons.
      intros [H | H]; try discriminate H. now apply elem_of_nil in H. }
  intros w' again. subst again.
  assert (Hgone' : JsMap.get tok (csrfTokens w') = None)
    by (now apply run_absent).
  rewrite postContact_unfold.
  pose proof (contactLimiter_frame clock req w') as (Hc1 & _ & Hs1 & _).
  pose proof (contactLimiter_verdict clock req w') as Hv1.
  destruct (contactLimiter clock req w') as [v1 w1]. cbn [fst snd] in *.
  destruct Hv1 as [-> | ->].
  - rewrite (validateCsrf_unknown clock req w1 tok Htok)
      by (now rewrite Hc1).
    unfold stages_run, response, world_after. cbn [fst snd].
    split; [now left |]. split; [| exact Hs1].
    rewrite !elem_of_cons.
    intros [H | [H | H]]; try discriminate H. now apply elem_of_nil in H.
  - unfold stages_run, response, world_after. cbn [fst snd].
    split; [now right |]. split; [| exact Hs1].
    rewrite !elem_of_cons.
    intros [H | H]; try discriminate H. now apply elem_of_nil in H.
Qed.

End TokenStoreFacts.

(** ** The printed form of a token *)

Module TokenFormat.

Lemma hexdigit_hex d : (d < 16)%N -> is_lower_hex (hexdigit d) = true.
Proof.
  intros Hd. unfold hexdigit, is_lower_hex.
  destruct (N.ltb_spec d 10); apply orb_true_iff;
    rewrite !andb_true_iff, !N.leb_le; lia.
Qed.

Lemma hexdigit_inj a b :
  (a < 16)%N -> (b < 16)%N -> hexdigit a = hexdigit b -> a = b.
Proof.
  unfold hexdigit. intros Ha Hb.
  destruct (N.ltb_spec a 10); destruct (N.ltb_spec b 10); lia.
Qed.

Lemma toHex_cons b bs :
  toHex (b :: bs) = hexdigit (b / 16) :: hexdigit (b mod 16) :: toHex bs.
Proof. reflexivity. Qed.

Lemma byte_digits b : (b < 256)%N -> (b / 16 < 16)%N /\ (b mod 16 < 16)%N.
Proof.
  intros Hb. split.
  - apply N.Div0.div_lt_upper_bound. lia.
  - apply N.mod_lt. lia.
Qed.

Lemma toHex_format bs :
  Forall (fun b => (b < 256)%N) bs ->
  length (toHex bs) = (2 * length bs)%nat
  /\ Forall (fun c => is_lower_hex c = true) (toHex bs).
Proof.
  induction 1 as [| b bs Hb _ [IHl IHf]]; [split; [reflexivity | constructor] |].
  rewrite toHex_cons. destruct (byte_digits b Hb) as [Hq Hr]. split.
  - simpl. rewrite IHl. lia.
  - repeat constructor; auto using hexdigit_hex.
Qed.

(** X11: the token that the issuance endpoint returns for 32 random bytes
    is a string of 64 lower-case hexadecimal digits. *)
Theorem issued_token_format
    (clock : nat -> Z) (ip0 : jsstring) (randomBytes : list N) (w : World) :
  length randomBytes = 32%nat ->
  Forall (fun b => (b < 256)%N) randomBytes ->
  exists token,
    json (fst (getCsrfToken clock ip0 randomBytes w)) = JToken token
    /\ length token = 64%nat
    /\ Forall (fun c => is_lower_hex c = true) token.
Proof.
  intros Hlen Hbytes. exists (toHex randomBytes).
  rewrite getCsrfToken_unfold. simpl.
  destruct (toHex_format randomBytes Hbytes) as [Hl Hf].
  split; [reflexivity |]. split; [| exact Hf]. rewrite Hl, Hlen. reflexivity.
Qed.

Lemma issued_token_format_witness :
  exists token,
    json (fst (getCsrfToken Sample.clock Sample.address Sample.randomBytes
                 startup)) = JToken token
    /\ length token = 64%nat
    /\ Forall (fun c => is_lower_hex c = true) token.
Proof.
  apply issued_token_format; [reflexivity |].
  unfold Sample.randomBytes. simpl. repeat constructor.
Defined.

(** X12: printing the bytes in hexadecimal loses nothing: two draws give
    the same token only when they are the same bytes. *)
Theorem toHex_injective (bs1 bs2 : list N) :
  Forall (fun b => (b < 256)%N) bs1 ->
  Forall (fun b => (b < 256)%N) bs2 ->
  toHex bs1 = toHex bs2 -> bs1 = bs2.
Proof.
  intros H1. revert bs2.
  induction H1 as [| b1 bs1 Hb1 _ IH]; intros bs2 H2 Heq.
  - destruct bs2; [reflexivity | discriminate Heq].
  - destruct H2 as [| b2 bs2 Hb2 H2]; [discriminate Heq |].
    rewrite !toHex_cons in Heq. injection Heq as Hq Hr Hrest.
    destruct (byte_digits b1 Hb1) as [? ?].
    destruct (byte_digits b2 Hb2) as [? ?].
    apply hexdigit_inj in Hq; [| assumption ..].
    apply hexdigit_inj in Hr; [| assumption ..].
    f_equal; [| now apply IH].
    rewrite (N.div_mod b1 16), (N.div_mod b2 16) by lia. now rewrite Hq, Hr.
Qed.

Lemma toHex_injective_witness : [171%N; 205%N] = [171%N; 205%N].
Proof.
  apply toHex_injective; [repeat constructor .. | reflexivity].
Defined.

End TokenFormat.

(** ** What is handed to the mail transport *)

Section MailFacts.
Context (clock : nat -> Z).
Context (transport : nat -> MailOptions -> bool).
Context (env : ProcessEnv).

Local Abbreviation postContactM := (postContact clock transport env).
Local Abbreviation runM := (run clock transport env).
Local Abbreviation handleM := (handle clock transport env).

(** The sends of one run of the contact handler. *)
Lemma contactHandler_sends req w :
  exists new,
    sendCalls (snd (contactHandler transport env req w)) = sendCalls w ++ new
    /\ (length new <= 2)%nat
    /\ Forall (fun c => dispatched env (fst c)) new
    /\ (emailConfigValid w = false -> new = []).
Proof.
  rewrite contactHandler_unfold.
  destruct (emailConfigValid w); simpl.
  - destruct (fieldValidation (body req)) eqn:Hval; simpl.
    + exists []. rewrite app_nil_r. repeat split; auto; try (simpl; lia).
    + assert (D1 : dispatched env (companyMailOptions env (sanitize (body req))))
        by (exists (body req); auto).
      assert (D2 : dispatched env
                     (customerMailOptions env (body req) (sanitize (body req))))
        by (exists (body req); auto).
      destruct (transport _ _); [destruct (transport _ _) |];
        cbn [snd sendCalls log_send]; rewrite <- ?app_assoc;
        eexists; (split; [reflexivity |]);
        simpl; repeat split; auto; try discriminate; try lia.
  - exists []. rewrite app_nil_r. repeat split; auto; try (simpl; lia).
Qed.

Lemma postContact_sends req w :
  exists new,
    sendCalls (snd (postContactM req w)) = sendCalls w ++ new
    /\ (length new <= 2)%nat
    /\ Forall (fun c => dispatched env (fst c)) new
    /\ (emailConfigValid w = false -> new = []).
Proof.
  rewrite postContact_unfold.
  pose proof (contactLimiter_frame clock req w) as (_ & He1 & Hs1 & _).
  destruct (contactLimiter clock req w) as [[| r1] w1]; cbn [fst snd] in *.
  - pose proof (validateCsrf_frame clock req w1) as (He2 & _ & Hs2 & _).
    destruct (validateCsrf clock req w1) as [[| r2] w2]; cbn [fst snd] in *.
    + destruct (contactHandler_sends req w2) as (new & Hn & Hl & Hd & Hc).
      destruct (contactHandler transport env req w2) as [r3 w3].
      cbn [fst snd] in *. exists new.
      rewrite Hn, Hs2, Hs1. repeat split; auto.
      intros H. apply Hc. congruence.
    + exists []. rewrite app_nil_r. repeat split; auto; try congruence; try (simpl; lia).
  - exists []. rewrite app_nil_r. repeat split; auto; try (simpl; lia).
Qed.

Lemma handle_sends ev w :
  exists new,
    sendCalls (snd (handleM ev w)) = sendCalls w ++ new
    /\ Forall (fun c => dispatched env (fst c)) new
    /\ (emailConfigValid w = false -> new = []).
Proof.
  destruct ev as [ip0 rb | req | err |].
  - rewrite handle_GetCsrfToken.
    destruct (getCsrfToken_frame clock ip0 rb w) as (_ & _ & -> & _).
    exists []. now rewrite app_nil_r.
  - rewrite handle_PostContact.
    destruct (postContact_sends req w) as (new & Hn & _ & Hd & Hc). eauto.
  - exists []. rewrite app_nil_r. repeat split; auto. simpl.
    unfold transporterVerified, bind, modify, ret.
    now destruct (validateEmailConfig env).
  - exists []. now rewrite app_nil_r.
Qed.

Lemma handle_unconfigured ev w :
  validateEmailConfig env = false ->
  emailConfigValid w = false ->
  emailConfigValid (snd (handleM ev w)) = false.
Proof.
  intros Hcfg Hw. destruct ev as [ip0 rb | req | err |].
  - rewrite handle_GetCsrfToken.
    now destruct (getCsrfToken_frame clock ip0 rb w) as (-> & _).
  - rewrite handle_PostContact. rewrite postContact_unfold.
    pose proof (contactLimiter_frame clock req w) as (_ & He1 & _).
    destruct (contactLimiter clock req w) as [[| r1] w1]; cbn [fst snd] in *;
      [| congruence].
    pose proof (validateCsrf_frame clock req w1) as (He2 & _).
    destruct (validateCsrf clock req w1) as [[| r2] w2]; cbn [fst snd] in *;
      [| congruence].
    pose proof (contactHandler_frame transport env req w2) as (_ & He3 & _).
    destruct (contactHandler transport env req w2) as [r3 w3].
    cbn [fst snd] in *. congruence.
  - simpl. unfold transporterVerified, bind, modify, ret. now rewrite Hcfg.
  - exact Hw.
Qed.

Lemma run_dispatched evs w :
  Forall (fun c => dispatched env (fst c)) (sendCalls w) ->
  Forall (fun c => dispatched env (fst c)) (sendCalls (runM evs w)).
Proof.
  revert w. induction evs as [| ev evs IH]; intros w H; [exact H |].
  rewrite run_cons. apply IH.
  destruct (handle_sends ev w) as (new & -> & Hd & _).
  apply Forall_app. now split.
Qed.

Lemma run_unconfigured evs w :
  validateEmailConfig env = false ->
  emailConfigValid w = false ->
  emailConfigValid (runM evs w) = false /\ sendCalls (runM evs w) = sendCalls w.
Proof.
  intros Hcfg. revert w. induction evs as [| ev evs IH]; intros w Hw;
    [split; [exact Hw | reflexivity] |].
  rewrite run_cons.
  destruct (IH _ (handle_unconfigured ev w Hcfg Hw)) as [-> ->].
  split; [reflexivity |].
  destruct (handle_sends ev w) as (new & -> & _ & Hc).
  rewrite (Hc Hw). apply app_nil_r.
Qed.

(** X13: with [EMAIL_USER], [EMAIL_PASSWORD] or [COMPANY_EMAIL] missing
    from the environment the server never sends anything: whatever
    happens after startup, the configuration flag stays off, no
    [sendMail] call is made, and every contact request that gets as far
    as the handler is answered 503. *)
Theorem unconfigured_never_sends (evs : list Event) :
  validateEmailConfig env = false ->
  let w := runM evs startup in
  emailConfigValid w = false
  /\ sendCalls w = []
  /\ forall req,
       ContactHandler ∈ stages_run (postContactM req w) ->
       response (postContactM req w) = Some emailUnavailable.
Proof.
  intros Hcfg w.
  destruct (run_unconfigured evs startup Hcfg eq_refl) as [He Hs].
  fold w in He, Hs. split; [exact He |]. split; [exact Hs |].
  intros req. rewrite postContact_unfold.
  pose proof (contactLimiter_frame clock req w) as (_ & He1 & _).
  destruct (contactLimiter clock req w) as [[| r1] w1];
    unfold stages_run, response; cbn [fst snd] in *.
  - pose proof (validateCsrf_frame clock req w1) as (He2 & _).
    destruct (validateCsrf clock req w1) as [[| r2] w2]; cbn [fst snd] in *.
    + intros _. rewrite contactHandler_unfold.
      replace (emailConfigValid w2) with false by congruence. reflexivity.
    + rewrite !elem_of_cons.
      intros [H | [H | H]]; try discriminate H. now apply elem_of_nil in H.
  - rewrite !elem_of_cons.
    intros [H | H]; try discriminate H. now apply elem_of_nil in H.
Qed.

(** X15: every document that is ever handed to [sendMail] interpolates
    sanitized data only: none of the six fields put into the HTML body
    has a less-than, greater-than, double quote, apostrophe or slash. *)
Theorem mails_carry_sanitized_data
    (evs : list Event) (m : MailOptions) (ok : bool) :
  (m, ok) ∈ sendCalls (runM evs startup) ->
  data_markup_free (snd (html m)).
Proof.
  intros Hin.
  pose proof (run_dispatched evs startup (Forall_nil_2 _)) as Hall.
  rewrite Forall_forall in Hall. specialize (Hall _ Hin). simpl in Hall.
  destruct Hall as (b & _ & [-> | ->]); simpl;
    repeat split; apply SanitizerSafety.sanitizeHtml_clean.
Qed.

(** X16: every document handed to [sendMail] is sent from [EMAIL_USER];
    a notification goes to [COMPANY_EMAIL], and an auto-reply goes to the
    [email] field, as submitted, of a submission that passed field
    validation.  The submissions are those of the request model, whose
    fields are strings or absent: for them this address has the shape the
    e-mail pattern asks for.  A field that [express.json] delivers as an
    array or another kind of value is outside the model, and the part on
    the shape says nothing of it. *)
Theorem mails_addressed (evs : list Event) (m : MailOptions) (ok : bool) :
  (m, ok) ∈ sendCalls (runM evs startup) ->
  from m = EMAIL_USER env
  /\ match fst (html m) with
     | CompanyNotification => to m = COMPANY_EMAIL env
     | CustomerAutoReply =>
         exists (b : ContactBody) (e : jsstring),
           fieldValidation b = None
           /\ email b = Some e
           /\ to m = email b
           /\ Regex.email_shape e
     end.
Proof.
  intros Hin.
  pose proof (run_dispatched evs startup (Forall_nil_2 _)) as Hall.
  rewrite Forall_forall in Hall. specialize (Hall _ Hin). simpl in Hall.
  destruct Hall as (b & Hval & [-> | ->]); simpl; split; auto.
  pose proof Hval as Hpass.
  unfold fieldValidation in Hval.
  destruct (falsy (name b) || falsy (email b) || falsy (message b)) eqn:Hf;
    [discriminate Hval |].
  destruct (Regex.test Regex.emailRegex (String_of (email b))) eqn:Ht;
    [| discriminate Hval].
  apply orb_false_elim in Hf as [Hf _]. apply orb_false_elim in Hf as [_ Hf].
  destruct (email b) as [e |] eqn:He; [| discriminate Hf].
  exists b, e. split; [exact Hpass |]. split; [exact He |].
  split; [symmetry; exact He |]. now apply RegexFacts.emailRegex_shape.
Qed.

(** X17: one contact request makes at most two [sendMail] calls, and the
    log of calls only grows. *)
Theorem request_sends_at_most_two (req : Request) (w : World) :
  exists new,
    sendCalls (world_after (postContactM req w)) = sendCalls w ++ new
    /\ (length new <= 2)%nat.
Proof.
  destruct (postContact_sends req w) as (new & Hn & Hl & _). eauto.
Qed.

Lemma validateCsrf_verdict req w :
  fst (validateCsrf clock req w) = Next
  \/ fst (validateCsrf clock req w) = Respond csrfInvalid
  \/ fst (validateCsrf clock req w) = Respond csrfExpired.
Proof.
  destruct (x_csrf_token req) as [tok |] eqn:Htok.
  - destruct tok as [| c tok].
    + rewrite validateCsrf_missing by (now right). auto.
    + destruct (JsMap.get (c :: tok) (csrfTokens w)) as [td |] eqn:Hget.
      * rewrite (validateCsrf_present clock req w _ td Htok) by
          (auto; discriminate).
        simpl. destruct (_ <? _); auto.
      * rewrite (validateCsrf_unknown clock req w (c :: tok)) by auto. auto.
  - rewrite validateCsrf_missing by (now left). auto.
Qed.

(** X14: the server answers that the message was sent only when both
    documents have been handed to the transport and both sends have
    succeeded: a 200 with [messageSent] means that the three stages ran,
    the transport was verified, the fields passed validation, and the
    log has grown by the notification and the auto-reply, both
    delivered. *)
Theorem success_means_both_sent (req : Request) (w : World) :
  response (postContactM req w) = Some messageSent ->
  let d := sanitize (body req) in
  stages_run (postContactM req w)
  = [ContactLimiter; ValidateCsrf; ContactHandler]
  /\ emailConfigValid w = true
  /\ fieldValidation (body req) = None
  /\ sendCalls (world_after (postContactM req w))
     = sendCalls w ++ [(companyMailOptions env d, true);
                       (customerMailOptions env (body req) d, true)].
Proof.
  rewrite postContact_unfold.
  pose proof (contactLimiter_frame clock req w) as (_ & He1 & Hs1 & _).
  pose proof (contactLimiter_verdict clock req w) as Hv1.
  destruct (contactLimiter clock req w) as [v1 w1]. cbn [fst snd] in *.
  destruct Hv1 as [-> | ->];
    [| unfold response; cbn [fst snd]; intros [= H]; discriminate H].
  pose proof (validateCsrf_frame clock req w1) as (He2 & _ & Hs2 & _).
  pose proof (validateCsrf_verdict req w1) as Hv2.
  destruct (validateCsrf clock req w1) as [v2 w2]. cbn [fst snd] in *.
  destruct Hv2 as [-> | [-> | ->]];
    try (unfold response; cbn [fst snd]; intros [= H]; discriminate H).
  rewrite contactHandler_unfold.
  unfold response, stages_run, world_after.
  destruct (emailConfigValid w2) eqn:Hcfg; simpl;
    [| intros [= H]; discriminate H].
  destruct (fieldValidation (body req)) as [r |] eqn:Hval; simpl.
  { intros [= ->]. apply fieldValidation_status in Hval. discriminate Hval. }
  destruct (transport _ _); [destruct (transport _ _) |]; simpl;
    try (intros [= H]; discriminate H).
  intros _. repeat split; try congruence.
  rewrite <- app_assoc. simpl. congruence.
Qed.

End MailFacts.

(** ** A submission from end to end *)

Section EndToEnd.
Context (clock : nat -> Z).
Context (transport : nat -> MailOptions -> bool).
Context (env : ProcessEnv).

Local Abbreviation postContactE2 := (postContact clock transport env).

(** X18: a request that the rate limiter admits, with a token that is in
    the store and not expired, with the transport verified, fields that
    pass validation and a transport that accepts both documents, is
    answered 200 with [messageSent], and its token is gone afterwards. *)
Theorem valid_submission_is_sent (req : Request) (w : World) (tok : jsstring) :
  valid_token (clock (S (ticks w))) req (csrfTokens w) tok ->
  fst (contactLimiter clock req w) = Next ->
  emailConfigValid w = true ->
  fieldValidation (body req) = None ->
  let d := sanitize (body req) in
  let k := length (sendCalls w) in
  transport k (companyMailOptions env d) = true ->
  transport (S k) (customerMailOptions env (body req) d) = true ->
  response (postContactE2 req w) = Some messageSent
  /\ JsMap.has tok (csrfTokens (world_after (postContactE2 req w))) = false.
Proof.
  intros (Htok & Hne & td & Hget & Hexp) Hadmit Hcfg Hval d k Ht1 Ht2.
  rewrite postContact_unfold.
  pose proof (contactLimiter_frame clock req w) as (Hc1 & He1 & Hs1 & Hk1).
  destruct (contactLimiter clock req w) as [v1 w1]. cbn [fst snd] in *.
  subst v1. rewrite <- Hc1 in Hget. rewrite <- Hk1 in Hexp.
  rewrite (validateCsrf_present clock req w1 tok td Htok Hne Hget).
  apply Z.ltb_ge in Hexp. rewrite Hexp.
  rewrite contactHandler_unfold. cbn [emailConfigValid set_csrfTokens tick].
  rewrite He1, Hcfg, Hval. cbn [negb sendCalls set_csrfTokens tick].
  rewrite Hs1. fold d. fold k. rewrite Ht1, Ht2.
  unfold response, world_after. cbn [fst snd]. split; [reflexivity |].
  apply JsMapFacts.has_get. simpl. apply JsMapFacts.get_delete_eq.
Qed.

(** X19: the contact form script sends no CSRF token, so the server of
    [server.js] never accepts what it submits: whatever the fields and
    whatever the state of the server, the answer is the 403 for a missing
    token or the 429 of the rate limiter, the handler does not run, no
    mail is sent, and the script shows the server's message as an
    error. *)
Theorem form_submission_is_rejected
    (ip0 : jsstring) (f : ContactForm.FormFields) (w : World) :
  let out := postContactE2 (ContactForm.submitRequest ip0 f) w in
  exists r,
    response out = Some r
    /\ (r = csrfInvalid \/ r = tooManyRequests)
    /\ (ContactHandler ∉ stages_run out)
    /\ sendCalls (world_after out) = sendCalls w
    /\ snd (ContactForm.feedback r) = "error"%string
    /\ json r = JResult false (fst (ContactForm.feedback r)).
Proof.
  intros out. subst out. rewrite postContact_unfold.
  set (req := ContactForm.submitRequest ip0 f).
  pose proof (contactLimiter_frame clock req w) as (_ & _ & Hs1 & _).
  pose proof (contactLimiter_verdict clock req w) as Hv1.
  destruct (contactLimiter clock req w) as [v1 w1]. cbn [fst snd] in *.
  destruct Hv1 as [-> | ->].
  - rewrite validateCsrf_missing by (now left).
    exists csrfInvalid. unfold response, stages_run, world_after.
    cbn [fst snd]. split; [reflexivity |]. split; [now left |].
    split; [| split; [exact Hs1 | split; reflexivity]].
    rewrite !elem_of_cons.
    intros [H | [H | H]]; try discriminate H. now apply elem_of_nil in H.
  - exists tooManyRequests. unfold response, stages_run, world_after.
    cbn [fst snd]. split; [reflexivity |]. split; [now right |].
    split; [| split; [exact Hs1 | split; reflexivity]].
    rewrite !elem_of_cons.
    intros [H | H]; try discriminate H. now apply elem_of_nil in H.
Qed.

End EndToEnd.

(** ** The contact form script *)

Module ContactFormFacts.
Import ContactForm.

Lemma filter_digits d :
  Forall (fun c => is_digit c = true) d -> List.filter is_digit d = d.
Proof.
  induction 1 as [| c d Hc _ IH]; [reflexivity |].
  simpl. now rewrite Hc, IH.
Qed.

Lemma digits_of_filter v :
  Forall (fun c => is_digit c = true) (List.filter is_digit v).
Proof.
  apply List.Forall_forall. intros c Hc. now apply filter_In in Hc.
Qed.

(** The handler looks at the digits of the field only. *)
Lemma phoneInput_filter v : phoneInput v = phoneInput (List.filter is_digit v).
Proof.
  unfold phoneInput.
  now rewrite (filter_digits _ (digits_of_filter v)).
Qed.

Ltac digits_up_to_eleven d H :=
  destruct d as [| ?a [| ?a [| ?a [| ?a [| ?a [| ?a [| ?a [| ?a
               [| ?a [| ?a [| ?a d]]]]]]]]]]];
  repeat match goal with
         | F : Forall _ (_ :: _) |- _ => apply Forall_cons in F as [? F]
         end.

Ltac use_digits :=
  repeat match goal with
         | E : is_digit ?a = true |- _ => rewrite !E; clear E
         end.

Lemma phoneInput_digits d :
  Forall (fun c => is_digit c = true) d ->
  List.filter is_digit (phoneInput d) = take 10 d.
Proof.
  intros H. unfold phoneInput. rewrite (filter_digits d H).
  digits_up_to_eleven d H; cbn; use_digits; reflexivity.
Qed.

Lemma phoneInput_take d :
  Forall (fun c => is_digit c = true) d ->
  phoneInput (take 10 d) = phoneInput d.
Proof.
  intros H. unfold phoneInput.
  rewrite (filter_digits d H), (filter_digits (take 10 d))
    by (now apply Forall_take).
  digits_up_to_eleven d H; reflexivity.
Qed.

Lemma phoneInput_length_digits d :
  Forall (fun c => is_digit c = true) d ->
  (length (phoneInput d) <= 14)%nat.
Proof.
  intros H. unfold phoneInput. rewrite (filter_digits d H).
  digits_up_to_eleven d H; cbn; lia.
Qed.

(** X20: formatting the phone field twice is formatting it once: the
    value that the [input] handler writes back is left as it is by the
    next run of the handler. *)
Theorem phoneInput_idempotent (v : jsstring) :
  phoneInput (phoneInput v) = phoneInput v.
Proof.
  pose proof (digits_of_filter v) as Hd.
  rewrite (phoneInput_filter v).
  rewrite (phoneInput_filter (phoneInput _)).
  rewrite (phoneInput_digits _ Hd). now apply phoneInput_take.
Qed.

(** X21: the phone field keeps the first ten digits of what was typed,
    in order, and nothing else but the punctuation of the format; it is
    never longer than fourteen characters, and it is empty exactly when
    no digit was typed. *)
Theorem phoneInput_keeps_ten_digits (v : jsstring) :
  List.filter is_digit (phoneInput v) = take 10 (List.filter is_digit v)
  /\ (length (phoneInput v) <= 14)%nat
  /\ (phoneInput v = [] <-> List.filter is_digit v = []).
Proof.
  pose proof (digits_of_filter v) as Hd.
  rewrite (phoneInput_filter v). split; [| split].
  - now apply phoneInput_digits.
  - now apply phoneInput_length_digits.
  - unfold phoneInput. rewrite (filter_digits _ Hd).
    destruct (List.filter is_digit v) as [| a [| b [| c [| e d]]]]; cbn;
      split; intros H; try reflexivity; try discriminate H.
    + destruct d as [| ? [| ? [| ? ?]]]; discriminate H.
Qed.

(** X22: on a field that is not empty the script and the server judge
    the e-mail address alike: the [blur] handler sets no error exactly
    when the server's field validation lets the submission pass (name and
    message being filled in).  An empty field gets no error from the
    handler, while the server answers that a required field is
    missing. *)
Theorem emailBlur_agrees_with_server (b : ContactBody) (e : jsstring) :
  email b = Some e ->
  ~ absent_or_empty (name b) -> ~ absent_or_empty (message b) ->
  (e <> [] -> (emailBlur e = EmptyString <-> fieldValidation b = None))
  /\ (e = [] -> emailBlur e = EmptyString
                /\ fieldValidation b = Some missingRequiredField).
Proof.
  intros He Hn Hm. split.
  - intros Hne.
    assert (Hem : ~ absent_or_empty (email b)).
    { rewrite He. intros [? | ?]; congruence. }
    rewrite (ValidatorFacts.fieldValidation_required b Hn Hem Hm), He.
    unfold emailBlur. cbn [falsy negb andb String_of default from_option id].
    destruct e as [| c e]; [congruence |]. cbn [falsy negb andb].
    destruct (Regex.test Regex.emailRegex (c :: e)); cbn [negb];
      split; intros H; try reflexivity; discriminate H.
  - intros ->. split; [reflexivity |].
    unfold fieldValidation. rewrite He. simpl.
    now rewrite orb_true_r.
Qed.

End ContactFormFacts.

(** ** The further properties at sample inputs *)

Lemma sample_clock_monotone i j :
  (i <= j)%nat -> Sample.clock i <= Sample.clock j.
Proof. unfold Sample.clock. lia. Qed.

Lemma issuance_sweeps_expired_witness :
  Sample.clock 2 <= expires (issued Sample.clock Sample.address startup).
Proof.
  apply (issuance_sweeps_expired Sample.clock Sample.address
           Sample.randomBytes startup Sample.token
           (issued Sample.clock Sample.address startup)).
  - exact sample_clock_monotone.
  - rewrite getCsrfToken_unfold. vm_compute. apply elem_of_cons. now left.
Defined.

Lemma issuance_keeps_live_witness :
  JsMap.get Sample.token
    (csrfTokens
       (snd (getCsrfToken Sample.clock Sample.address SampleForm.other_bytes
               SampleForm.issuedW)))
  = Some (issued Sample.clock Sample.address Sample.ready).
Proof.
  apply (issuance_keeps_live Sample.clock Sample.address
           SampleForm.other_bytes SampleForm.issuedW Sample.token
           (issued Sample.clock Sample.address Sample.ready)).
  - exact sample_clock_monotone.
  - vm_compute. apply NoDup_singleton.
  - vm_compute. discriminate.
  - vm_compute. reflexivity.
  - vm_compute. discriminate.
Defined.

Lemma validateCsrf_touches_only_presented_witness :
  let w' :=
    snd (validateCsrf Sample.clock SampleForm.with_other_token
           SampleForm.issuedW) in
  JsMap.get Sample.token (csrfTokens w')
  = JsMap.get Sample.token (csrfTokens SampleForm.issuedW)
  /\ emailConfigValid w' = emailConfigValid SampleForm.issuedW
  /\ limiterHits w' = limiterHits SampleForm.issuedW
  /\ sendCalls w' = sendCalls SampleForm.issuedW.
Proof.
  apply (validateCsrf_touches_only_presented Sample.clock
           SampleForm.with_other_token SampleForm.issuedW Sample.token).
  vm_compute. discriminate.
Defined.

Lemma only_issued_tokens_pass_witness :
  exists tok,
    x_csrf_token Sample.with_token = Some tok
    /\ issued_by tok [GetCsrfToken Sample.address Sample.randomBytes].
Proof.
  apply (only_issued_tokens_pass Sample.clock Sample.reachable Sample.env
           [GetCsrfToken Sample.address Sample.randomBytes]
           Sample.with_token).
  vm_compute. reflexivity.
Defined.

Lemma processed_submission_not_replayable_witness :
  let first :=
    postContact Sample.clock Sample.reachable Sample.env Sample.with_token
      SampleForm.issuedW in
  let w' :=
    run Sample.clock Sample.reachable Sample.env [GetHealth]
      (world_after first) in
  let again :=
    postContact Sample.clock Sample.reachable Sample.env Sample.with_token w' in
  (response again = Some csrfInvalid \/ response again = Some tooManyRequests)
  /\ (ContactHandler ∉ stages_run again)
  /\ sendCalls (world_after again) = sendCalls w'.
Proof.
  apply (processed_submission_not_replayable Sample.clock Sample.reachable
           Sample.env Sample.with_token SampleForm.issuedW Sample.token
           [GetHealth]).
  - reflexivity.
  - vm_compute. do 2 (apply elem_of_cons; right). apply elem_of_cons. now left.
  - repeat constructor.
Defined.

Lemma unconfigured_never_sends_witness :
  let w :=
    run Sample.clock Sample.reachable SampleForm.incomplete_env
      SampleForm.session startup in
  emailConfigValid w = false
  /\ sendCalls w = []
  /\ forall req,
       ContactHandler
       ∈ stages_run (postContact Sample.clock Sample.reachable
                       SampleForm.incomplete_env req w) ->
       response (postContact Sample.clock Sample.reachable
                   SampleForm.incomplete_env req w)
       = Some emailUnavailable.
Proof.
  apply (unconfigured_never_sends Sample.clock Sample.reachable
           SampleForm.incomplete_env SampleForm.session).
  reflexivity.
Defined.

Lemma success_means_both_sent_witness :
  let out :=
    postContact Sample.clock Sample.reachable Sample.env Sample.with_token
      SampleForm.issuedW in
  let d := sanitize Sample.submission in
  stages_run out = [ContactLimiter; ValidateCsrf; ContactHandler]
  /\ emailConfigValid SampleForm.issuedW = true
  /\ fieldValidation Sample.submission = None
  /\ sendCalls (world_after out)
     = sendCalls SampleForm.issuedW
       ++ [(companyMailOptions Sample.env d, true);
           (customerMailOptions Sample.env Sample.submission d, true)].
Proof.
  apply (success_means_both_sent Sample.clock Sample.reachable Sample.env
           Sample.with_token SampleForm.issuedW).
  vm_compute. reflexivity.
Defined.

Lemma mails_carry_sanitized_data_witness :
  data_markup_free (sanitize Sample.submission).
Proof.
  apply (mails_carry_sanitized_data Sample.clock Sample.reachable Sample.env
           SampleForm.session
           (companyMailOptions Sample.env (sanitize Sample.submission)) true).
  vm_compute. apply elem_of_cons. now left.
Defined.

Lemma mails_addressed_witness :
  let m :=
    customerMailOptions Sample.env Sample.submission
      (sanitize Sample.submission) in
  from m = EMAIL_USER Sample.env
  /\ exists e, to m = Some e /\ Regex.email_shape e.
Proof.
  intros m.
  destruct (mails_addressed Sample.clock Sample.reachable Sample.env
              SampleForm.session m true) as (Hfrom & b & e & _ & He & Hto & Hs).
  - vm_compute. apply elem_of_cons. right. apply elem_of_cons. now left.
  - split; [exact Hfrom |]. exists e. split; [| exact Hs].
    now rewrite Hto, He.
Defined.

Lemma valid_submission_is_sent_witness :
  let out :=
    postContact Sample.clock Sample.reachable Sample.env Sample.with_token
      SampleForm.issuedW in
  response out = Some messageSent
  /\ JsMap.has Sample.token (csrfTokens (world_after out)) = false.
Proof.
  apply (valid_submission_is_sent Sample.clock Sample.reachable Sample.env
           Sample.with_token SampleForm.issuedW Sample.token);
    try reflexivity.
  split; [reflexivity |]. split; [discriminate |].
  eexists. split; [vm_compute; reflexivity | vm_compute; discriminate].
Defined.

Lemma emailBlur_agrees_with_server_witness :
  (ContactForm.emailBlur (lit "a@b.co") = EmptyString
   <-> fieldValidation Sample.submission = None)
  /\ ContactForm.emailBlur [] = EmptyString.
Proof.
  assert (Hn : ~ absent_or_empty (name Sample.submission))
    by (intros [H | H]; discriminate H).
  assert (Hm : ~ absent_or_empty (message Sample.submission))
    by (intros [H | H]; discriminate H).
  split.
  - apply (proj1 (ContactFormFacts.emailBlur_agrees_with_server
                    Sample.submission (lit "a@b.co") eq_refl Hn Hm)).
    discriminate.
  - assert (Hn' : ~ absent_or_empty
                     (name (ContactForm.formData SampleForm.blank_email)))
      by (intros [H | H]; discriminate H).
    assert (Hm' : ~ absent_or_empty
                     (message (ContactForm.formData SampleForm.blank_email)))
      by (intros [H | H]; discriminate H).
    exact (proj1 (proj2 (ContactFormFacts.emailBlur_agrees_with_server
                           (ContactForm.formData SampleForm.blank_email) []
                           eq_refl Hn' Hm') eq_refl)).
Defined.

(** ** The answers of the contact route *)

Section Answers.
Context (clock : nat -> Z).
Context (transport : nat -> MailOptions -> bool).
Context (env : ProcessEnv).

Local Abbreviation postContactA := (postContact clock transport env).

Lemma fieldValidation_cases b r :
  fieldValidation b = Some r ->
  r = missingRequiredField \/ r = invalidEmailFormat.
Proof.
  unfold fieldValidation. destruct (_ || _).
  - intros [= <-]. now left.
  - destruct (negb _); [intros [= <-]; now right | discriminate].
Qed.

Lemma postContact_response_cases req w :
  exists r,
    response (postContactA req w) = Some r
    /\ (r = tooManyRequests \/ r = csrfInvalid \/ r = csrfExpired
        \/ r = emailUnavailable \/ r = missingRequiredField
        \/ r = invalidEmailFormat \/ r = dispatchFailure
        \/ r = messageSent).
Proof.
  rewrite postContact_unfold.
  pose proof (contactLimiter_verdict clock req w) as Hv1.
  destruct (contactLimiter clock req w) as [v1 w1]. cbn [fst snd] in *.
  destruct Hv1 as [-> | ->]; [| eexists; split; [reflexivity | tauto]].
  pose proof (validateCsrf_verdict clock req w1) as Hv2.
  destruct (validateCsrf clock req w1) as [v2 w2]. cbn [fst snd] in *.
  destruct Hv2 as [-> | [-> | ->]];
    try (eexists; split; [reflexivity | tauto]).
  rewrite contactHandler_unfold. unfold response.
  destruct (negb (emailConfigValid w2));
    [eexists; split; [reflexivity | tauto] |].
  destruct (fieldValidation (body req)) as [r |] eqn:Hval.
  - exists r. split; [reflexivity |].
    destruct (fieldValidation_cases _ _ Hval) as [-> | ->]; tauto.
  - simpl. destruct (transport _ _); [destruct (transport _ _) |];
      eexists; (split; [reflexivity | tauto]).
Qed.

(** X23: the contact route answers every request, and always with a
    body of the form success-and-message: the status is one of 200, 400,
    403, 429, 500 and 503, the message is never empty, and [success] is
    true exactly when the status is 200. *)
Theorem contact_route_answers (req : Request) (w : World) :
  exists r ok msg,
    response (postContactA req w) = Some r
    /\ json r = JResult ok msg
    /\ msg <> EmptyString
    /\ status r ∈ [200; 400; 403; 429; 500; 503]
    /\ (ok = true <-> status r = 200).
Proof.
  destruct (postContact_response_cases req w) as (r & Hr & Hcases).
  exists r.
  destruct Hcases as [-> | [-> | [-> | [-> | [-> | [-> | [-> | ->]]]]]]];
    eexists _, _; (split; [exact Hr |]); (split; [reflexivity |]);
    (split; [discriminate |]);
    (split; [cbn; rewrite !elem_of_cons; tauto |]);
    cbn; split; intros H; try reflexivity; discriminate H.
Qed.


End Answers.


(** ** The rate limiter under interleaved traffic *)

Section LimiterTraffic.
Context (clock : nat -> Z).
Context (transport : nat -> MailOptions -> bool).
Context (env : ProcessEnv).

Local Abbreviation handleL := (handle clock transport env).
Local Abbreviation postContactL := (postContact clock transport env).
Local Abbreviation historyL := (history clock transport env).

(** A request leaves the records of the other addresses alone. *)
Lemma contactLimiter_other req w b :
  ip req <> b ->
  limiterHits (snd (contactLimiter clock req w)) !! b = limiterHits w !! b.
Proof.
  intros Hne. rewrite contactLimiter_unfold. simpl.
  now apply lookup_insert_ne.
Qed.

Lemma contactLimiter_record req w :
  let win := current_window (clock (ticks w)) (limiterHits w !! ip req) in
  limiterHits (snd (contactLimiter clock req w)) !! ip req
  = Some {| count := count win + 1; windowStart := windowStart win |}.
Proof. intros win. rewrite contactLimiter_unfold. simpl. apply lookup_insert_eq. Qed.

(** Only the rate limiter writes to its table. *)
Lemma postContact_limiterHits req w :
  limiterHits (snd (postContactL req w))
  = limiterHits (snd (contactLimiter clock req w)).
Proof.
  rewrite postContact_unfold.
  destruct (contactLimiter clock req w) as [[| r1] w1]; cbn [fst snd];
    [| reflexivity].
  pose proof (validateCsrf_frame clock req w1) as (_ & Hl2 & _).
  destruct (validateCsrf clock req w1) as [[| r2] w2]; cbn [fst snd] in *;
    [| exact Hl2].
  pose proof (contactHandler_frame transport env req w2) as (_ & _ & Hl3 & _).
  destruct (contactHandler transport env req w2) as [r3 w3].
  cbn [fst snd] in *. congruence.
Qed.

Lemma handle_limiter_other ev w b :
  sent_from b ev = false ->
  limiterHits (snd (handleL ev w)) !! b = limiterHits w !! b.
Proof.
  destruct ev as [ip0 rb | req | err |]; simpl sent_from; intros Hb.
  - rewrite handle_GetCsrfToken.
    now destruct (getCsrfToken_frame clock ip0 rb w) as (_ & -> & _).
  - rewrite handle_PostContact, postContact_limiterHits.
    apply contactLimiter_other. now apply bool_decide_eq_false in Hb.
  - simpl. unfold transporterVerified, bind, modify, ret.
    now destruct (validateEmailConfig env).
  - reflexivity.
Qed.

(** What an admitted request can be answered with: never a 429. *)
Lemma postContact_admitted req w :
  fst (contactLimiter clock req w) = Next ->
  exists r, response (postContactL req w) = Some r /\ status r <> 429.
Proof.
  intros Hadmit. rewrite postContact_unfold.
  destruct (contactLimiter clock req w) as [v1 w1]. cbn [fst snd] in *.
  subst v1.
  pose proof (validateCsrf_verdict clock req w1) as Hv2.
  destruct (validateCsrf clock req w1) as [v2 w2]. cbn [fst snd] in *.
  unfold response.
  destruct Hv2 as [-> | [-> | ->]];
    try (eexists; split; [reflexivity | discriminate]).
  rewrite contactHandler_unfold.
  destruct (negb (emailConfigValid w2));
    [eexists; split; [reflexivity | discriminate] |].
  destruct (fieldValidation (body req)) as [r |] eqn:Hval.
  - exists r. split; [reflexivity |].
    apply fieldValidation_status in Hval. rewrite Hval. discriminate.
  - simpl. destruct (transport _ _); [destruct (transport _ _) |];
      eexists; (split; [reflexivity | discriminate]).
Qed.

(** A contact request is answered 429 exactly when its count in the
    current window of its address exceeds [max]. *)
Lemma handle_contact_429 req w :
  let win := current_window (clock (ticks w)) (limiterHits w !! ip req) in
  exists r,
    fst (handleL (PostContact req) w) = Some r
    /\ ((status r =? 429) = (RateLimit.max <? count win + 1)).
Proof.
  intros win. unfold handle, bind, ret.
  destruct (postContactL req w) as [[stages resp] w'] eqn:Hout.
  cbn [fst snd].
  pose proof (contactLimiter_unfold clock req w) as Hlim. fold win in Hlim.
  destruct (RateLimit.max <? count win + 1) eqn:Hover.
  - assert (resp = Some tooManyRequests) as ->.
    { rewrite postContact_unfold, Hlim, Hover in Hout.
      now injection Hout as _ <- _. }
    exists tooManyRequests. split; reflexivity.
  - destruct (postContact_admitted req w) as (r & Hr & Hs).
    { rewrite Hlim. cbn [fst]. now rewrite Hover. }
    rewrite Hout in Hr. unfold response in Hr. cbn [fst snd] in Hr. subst resp.
    exists r. split; [reflexivity |]. now apply Z.eqb_neq.
Qed.

Lemma handle_contact_record req w :
  let win := current_window (clock (ticks w)) (limiterHits w !! ip req) in
  limiterHits (snd (handleL (PostContact req) w)) !! ip req
  = Some {| count := count win + 1; windowStart := windowStart win |}.
Proof.
  intros win. rewrite handle_PostContact, postContact_limiterHits.
  apply contactLimiter_record.
Qed.

Lemma history_cons ev evs w :
  historyL (ev :: evs) w
  = {| event := ev; asked_at := clock (ticks w);
       answer := fst (handleL ev w) |}
    :: historyL evs (snd (handleL ev w)).
Proof. reflexivity. Qed.

(** Within the window of a record, whatever else the server is asked in
    between, the requests of the address are answered 429 exactly from
    the one that brings the count above [max]. *)
Lemma history_in_window evs w a (c : nat) t0 :
  limiterHits w !! a = Some {| count := Z.of_nat c; windowStart := t0 |} ->
  Forall (fun x => asked_at x < t0 + RateLimit.windowMs)
    (requests_of a (historyL evs w)) ->
  map answered_429 (requests_of a (historyL evs w))
  = map over_limit (seq c (length (requests_of a (historyL evs w)))).
Proof.
  revert w c. induction evs as [| ev evs IH]; intros w c Hrec Hwin;
    [reflexivity |].
  rewrite history_cons in *. unfold requests_of in *. cbn [List.filter event] in *.
  destruct (sent_from a ev) eqn:Hfrom.
  - destruct ev as [| req | |]; try discriminate Hfrom.
    simpl in Hfrom. apply bool_decide_eq_true in Hfrom.
    apply Forall_cons in Hwin as [Hnow Hwin]. cbn [asked_at] in Hnow.
    pose proof (handle_contact_record req w) as Hrec'.
    destruct (handle_contact_429 req w) as (r & Hr & H429).
    cbv zeta in Hrec', H429. rewrite Hfrom, Hrec in Hrec', H429.
    unfold current_window in Hrec', H429.
    cbn [windowStart count] in Hrec', H429.
    apply Z.leb_gt in Hnow. rewrite Hnow in Hrec', H429.
    cbn [windowStart count] in Hrec', H429.
    cbn [map length seq]. f_equal.
    + unfold answered_429. cbn [answer]. rewrite Hr, H429.
      unfold over_limit, RateLimit.max.
      destruct (Nat.ltb_spec c 5); destruct (Z.ltb_spec 5 (Z.of_nat c + 1));
        auto; lia.
    + apply (IH _ (S c)); [| exact Hwin].
      rewrite Hrec'. f_equal. f_equal. lia.
  - apply IH; [| exact Hwin]. now rewrite handle_limiter_other.
Qed.

(** The same from an address without a record: its first request opens
    the window. *)
Lemma history_fresh evs w a first rest :
  limiterHits w !! a = None ->
  requests_of a (historyL evs w) = first :: rest ->
  Forall (fun x => asked_at x < asked_at first + RateLimit.windowMs) rest ->
  map answered_429 (first :: rest)
  = map over_limit (seq 0 (S (length rest))).
Proof.
  revert w. induction evs as [| ev evs IH]; intros w Hnone Hreqs Hwin;
    [discriminate Hreqs |].
  rewrite history_cons in Hreqs. unfold requests_of in *.
  cbn [List.filter event] in Hreqs.
  destruct (sent_from a ev) eqn:Hfrom.
  - destruct ev as [| req | |]; try discriminate Hfrom.
    simpl in Hfrom. apply bool_decide_eq_true in Hfrom.
    pose proof (handle_contact_record req w) as Hrec'.
    destruct (handle_contact_429 req w) as (r & Hr & H429).
    cbv zeta in Hrec', H429. rewrite Hfrom, Hnone in Hrec', H429.
    unfold current_window in Hrec', H429.
    cbn [windowStart count] in Hrec', H429.
    set (o := handleL (PostContact req) w) in *.
    injection Hreqs as <- <-. cbn [asked_at] in Hwin.
    cbn [map length seq]. f_equal.
    + unfold answered_429. cbn [answer]. now rewrite Hr, H429.
    + apply (history_in_window evs _ a 1 (clock (ticks w))); assumption.
  - apply (IH (snd (handleL ev w))); auto.
    now rewrite handle_limiter_other.
Qed.

(** Whatever else the server is asked in between, the answers to the
    requests of an address are those of the limiter run on these requests
    alone. *)
Lemma history_replay evs w a :
  map answered_429 (requests_of a (historyL evs w))
  = window_replay (limiterHits w !! a)
      (map asked_at (requests_of a (historyL evs w))).
Proof.
  revert w. induction evs as [| ev evs IH]; intros w; [reflexivity |].
  rewrite history_cons. unfold requests_of in *. cbn [List.filter event].
  destruct (sent_from a ev) eqn:Hfrom.
  - destruct ev as [| req | |]; try discriminate Hfrom.
    simpl in Hfrom. apply bool_decide_eq_true in Hfrom.
    pose proof (handle_contact_record req w) as Hrec'.
    destruct (handle_contact_429 req w) as (r & Hr & H429).
    cbv zeta in Hrec', H429. rewrite Hfrom in Hrec', H429.
    set (o := handleL (PostContact req) w) in *.
    cbn [map asked_at window_replay]. f_equal.
    + unfold answered_429. cbn [answer]. now rewrite Hr, H429.
    + rewrite IH. now rewrite Hrec'.
  - rewrite IH. now rewrite handle_limiter_other.
Qed.

Lemma filter_negb_map {A} (f : A -> bool) (l : list A) :
  length (List.filter (fun x => negb (f x)) l)
  = length (List.filter negb (map f l)).
Proof.
  induction l as [| x l IH]; [reflexivity |].
  simpl. destruct (f x); simpl; now rewrite IH.
Qed.

(** From position [c] of a window on, at most [5 - c] requests are within
    the limit. *)
Lemma over_limit_admits (c n : nat) :
  (length (List.filter negb (map over_limit (seq c n))) <= 5 - c)%nat.
Proof.
  revert c. induction n as [| n IH]; intros c; [simpl; lia |].
  cbn [seq map List.filter]. specialize (IH (S c)).
  unfold over_limit at 1. destruct (Nat.ltb_spec c 5); simpl; lia.
Qed.

(** C8: the contact route is limited to 5 requests per client address per
    window of 15 minutes (900000 ms); a request over the limit is answered
    429.  For requests of one address [a] arriving back to back from a
    state without a record of [a], all within the window opened by the
    first, the verdicts are [Next] five times and [Respond
    tooManyRequests] from the sixth on; a request on a record whose window
    has run out opens a new window and is admitted, one inside the window
    counts one more and is admitted exactly while the count was below the
    maximum.  The limit is per address and holds under any traffic: a
    request of another address, and any event that is not a contact
    request of the address, leaves the record of the address as it is;
    in the history of any list of events, from any state, the requests of
    an address are answered as by the limiter run on these requests alone;
    within one window, with anything in between, they are answered 429
    exactly from the sixth of the window on, so that at most five of them
    are not; and a request on a record whose window has run out is not
    answered 429 and leaves the record at count 1 in a window that starts
    with it. *)
Theorem contactLimiter_window :
  (forall (reqs : list Request) (w : World) (a : jsstring),
     Forall (fun req => ip req = a) reqs ->
     limiterHits w !! a = None ->
     (forall i, (i < length reqs)%nat ->
                clock (ticks w + i) < clock (ticks w) + RateLimit.windowMs) ->
     fst (limiterVerdicts clock reqs w)
     = map verdict_in_window (seq 0 (length reqs))
     /\ (forall i, (5 <= i < length reqs)%nat ->
           fst (limiterVerdicts clock reqs w) !! i
           = Some (Respond tooManyRequests)))
  /\ status tooManyRequests = 429
  /\ RateLimit.windowMs = 900000
  /\ (forall (req' : Request) (w1 : World) (win : RateWindow),
       limiterHits w1 !! ip req' = Some win ->
       let now := clock (ticks w1) in
       let out := contactLimiter clock req' w1 in
       (windowStart win + RateLimit.windowMs <= now ->
          fst out = Next
          /\ limiterHits (snd out) !! ip req'
             = Some {| count := 1; windowStart := now |})
       /\ (now < windowStart win + RateLimit.windowMs ->
             limiterHits (snd out) !! ip req'
             = Some {| count := count win + 1;
                       windowStart := windowStart win |}
             /\ (fst out = Next <-> count win < RateLimit.max)))
  /\ (forall (req' : Request) (w1 : World) (b : jsstring),
        ip req' <> b ->
        limiterHits (snd (contactLimiter clock req' w1)) !! b
        = limiterHits w1 !! b)
  /\ (forall (ev : Event) (w1 : World) (b : jsstring),
        sent_from b ev = false ->
        limiterHits (snd (handleL ev w1)) !! b = limiterHits w1 !! b)
  /\ (forall b : jsstring, limiterHits startup !! b = None)
  /\ (forall (evs : list Event) (w1 : World) (b : jsstring),
        map answered_429 (requests_of b (historyL evs w1))
        = window_replay (limiterHits w1 !! b)
            (map asked_at (requests_of b (historyL evs w1))))
  /\ (forall (evs : list Event) (w1 : World) (b : jsstring)
             (first : Exchange) (rest : list Exchange),
        limiterHits w1 !! b = None ->
        requests_of b (historyL evs w1) = first :: rest ->
        Forall (fun x => asked_at x < asked_at first + RateLimit.windowMs)
          rest ->
        map answered_429 (first :: rest)
        = map over_limit (seq 0 (S (length rest)))
        /\ (length (List.filter (fun x => negb (answered_429 x))
                      (first :: rest)) <= 5)%nat)
  /\ (forall (evs : list Event) (w1 : World) (b : jsstring)
             (c : nat) (t0 : Z),
        limiterHits w1 !! b
        = Some {| count := Z.of_nat c; windowStart := t0 |} ->
        Forall (fun x => asked_at x < t0 + RateLimit.windowMs)
          (requests_of b (historyL evs w1)) ->
        map answered_429 (requests_of b (historyL evs w1))
        = map over_limit
            (seq c (length (requests_of b (historyL evs w1))))
        /\ (length (List.filter (fun x => negb (answered_429 x))
                      (requests_of b (historyL evs w1))) <= 5 - c)%nat)
  /\ (forall (req' : Request) (w1 : World) (win : RateWindow),
        limiterHits w1 !! ip req' = Some win ->
        windowStart win + RateLimit.windowMs <= clock (ticks w1) ->
        (exists r, fst (handleL (PostContact req') w1) = Some r
                   /\ status r <> 429)
        /\ limiterHits (snd (handleL (PostContact req') w1)) !! ip req'
           = Some {| count := 1; windowStart := clock (ticks w1) |}).
Proof.
  split.
  { intros reqs w a Hall Hnone Hin.
    destruct (limiterVerdicts_window clock reqs w a Hall Hnone Hin)
      as (Hvs & Hover & _).
    split; [exact Hvs | exact Hover]. }
  split; [reflexivity |]. split; [reflexivity |].
  split.
  { intros req' w1 win Hwin.
    destruct (limiterVerdicts_window clock [] startup (ip req'))
      as (_ & _ & _ & _ & Hstep);
      [constructor | reflexivity | intros i Hi; inversion Hi |].
    exact (Hstep req' w1 win Hwin). }
  split; [exact contactLimiter_other |].
  split; [exact handle_limiter_other |].
  split; [reflexivity |].
  split; [exact history_replay |].
  split; [| split].
  - intros evs w1 b first rest Hb Hreqs Hwin.
    pose proof (history_fresh evs w1 b first rest Hb Hreqs Hwin) as Hmap.
    split; [exact Hmap |].
    rewrite filter_negb_map, Hmap.
    pose proof (over_limit_admits 0 (S (length rest))). lia.
  - intros evs w1 b c t0 Hb Hwin.
    pose proof (history_in_window evs w1 b c t0 Hb Hwin) as Hmap.
    split; [exact Hmap |].
    rewrite filter_negb_map, Hmap. apply over_limit_admits.
  - intros req' w1 win Hwin Hout.
    pose proof (handle_contact_record req' w1) as Hrec.
    destruct (handle_contact_429 req' w1) as (r & Hr & H429).
    cbv zeta in Hrec, H429. rewrite Hwin in Hrec, H429.
    unfold current_window in Hrec, H429.
    apply Z.leb_le in Hout. rewrite Hout in Hrec, H429.
    cbn [windowStart count] in Hrec, H429.
    split; [| exact Hrec].
    exists r. split; [exact Hr |].
    apply Z.eqb_neq. rewrite H429. reflexivity.
Qed.

End LimiterTraffic.

Lemma contactLimiter_window_witness :
  fst (limiterVerdicts Sample.clock (replicate 6 Sample.without_token) startup)
  = [Next; Next; Next; Next; Next; Respond tooManyRequests]
  /\ (let h := history Sample.clock Sample.reachable Sample.env
                 SampleForm.taking_turns Sample.ready in
      length h = 12%nat
      /\ map answered_429 (requests_of Sample.address h)
         = [false; false; false; false; false; true]
      /\ map answered_429 (requests_of (ip SampleForm.neighbour) h)
         = [false; false; false; false; false; true]).
Proof.
  assert (Hall : Forall (fun req => ip req = Sample.address)
                   (replicate 6 Sample.without_token))
    by repeat constructor.
  assert (Hnone : limiterHits startup !! Sample.address = None)
    by reflexivity.
  assert (Hin : forall i, (i < length (replicate 6 Sample.without_token))%nat ->
                  Sample.clock (ticks startup + i)
                  < Sample.clock (ticks startup) + RateLimit.windowMs).
  { intros i Hi. unfold Sample.clock, RateLimit.windowMs. simpl in Hi. lia. }
  pose proof (contactLimiter_window Sample.clock Sample.reachable Sample.env)
    as (Hback & _ & _ & _ & _ & _ & _ & Hreplay & _).
  destruct (Hback (replicate 6 Sample.without_token) startup Sample.address
              Hall Hnone Hin) as [Hvs _].
  split; [exact Hvs |].
  intros h. subst h. split; [reflexivity |].
  split; rewrite Hreplay; vm_compute; reflexivity.
Defined.
